(** * ICP robot simulator: robots.h and mainwindow.cpp

    A shallow embedding of the robot classes ([Robot], [AutonomousRobot],
    [RemoteRobot]) and of the [MainWindow] operations that create entities,
    load a scene file and drive the simulation tick.

    Conventions of the embedding:
    - a C++ [double] is a real number ([R]): the arithmetic of the code is
      read with its exact, unrounded meaning, and [M_PI] is [PI];
    - a C++ [int] is an integer ([Z]), signed overflow being undefined in
      C++ and not met by the values at hand; the conversions between the
      two are written where the code performs them ([IZR],
      [double_to_int]);
    - a [QString] is a [string], a [QMap<QString, QString>] is a
      [gmap string string];
    - objects mutated in place become explicit state: a method is a function
      from the old object to the new one, and the window threads one
      [MainWindow.t] value through its slots. *)

From Stdlib Require Import Reals Lra ZArith Ascii String List.
From stdpp Require Import gmap strings list fin_maps.

(** ** Qt value types used by the code *)

Module Qt.

Local Open Scope R_scope.

(** [QPointF]: a point with [qreal] coordinates. *)
Record QPointF := mkPoint { px : R; py : R }.

(** [QRectF(x, y, w, h)]: top-left corner and size. *)
Record QRectF := mkRect { rx : R; ry : R; rw : R; rh : R }.

Definition Rltb (a b : R) : bool := if Rlt_dec a b then true else false.

(** The horizontal (or vertical) extent of a rectangle side, as
    [QRectF::intersects] normalises it: a negative size extends to the left. *)
Definition span (o s : R) : R * R :=
  if Rltb s 0 then (o + s, o) else (o, o + s).

(** [QRectF::intersects]: the two rectangles share a region of positive
    area; a rectangle of zero width or height intersects nothing. *)
Definition intersects (a b : QRectF) : bool :=
  let '(l1, r1) := span (rx a) (rw a) in
  let '(l2, r2) := span (rx b) (rw b) in
  let '(t1, b1) := span (ry a) (rh a) in
  let '(t2, b2) := span (ry b) (rh b) in
  Rltb l1 r1 && Rltb l2 r2 && Rltb l1 r2 && Rltb l2 r1 &&
  Rltb t1 b1 && Rltb t2 b2 && Rltb t1 b2 && Rltb t2 b1.

(** Conversion of a [double] to an [int]: the fractional part is dropped
    (rounding toward zero). *)
Definition double_to_int (d : R) : Z :=
  if Rle_dec 0 d then Int_part d else (- Int_part (- d))%Z.

(** The colours the robots use. *)
Inductive QColor := blue | magenta | noColor.

(** *** [QString] operations used by the scene loader *)

Local Open Scope string_scope.

(** [QChar::isSpace] on the Latin-1 range: tab, line feed, vertical tab,
    form feed, carriage return and space. *)
Definition isSpace (c : ascii) : bool :=
  let n := nat_of_ascii c in
  ((9 <=? n)%nat && (n <=? 13)%nat) || (n =? 32)%nat.

Fixpoint dropSpaces (s : string) : string :=
  match s with
  | String c s' => if isSpace c then dropSpaces s' else s
  | EmptyString => EmptyString
  end.

Fixpoint rev_string (s acc : string) : string :=
  match s with
  | String c s' => rev_string s' (String c acc)
  | EmptyString => acc
  end.

(** [QString::trimmed]. *)
Definition trimmed (s : string) : string :=
  rev_string (dropSpaces (rev_string (dropSpaces s) "")) "".

Definition isEmpty (s : string) : bool :=
  match s with EmptyString => true | _ => false end.

(** [QString::startsWith], [QString::endsWith]. *)
Definition startsWith (s p : string) : bool := String.prefix p s.

Definition endsWith (s p : string) : bool :=
  String.prefix (rev_string p "") (rev_string s "").

(** [QString::left(n)]: the first [n] characters; the whole string when
    [n] is negative or exceeds its length. *)
Definition left (s : string) (n : Z) : string :=
  if (n <? 0)%Z then s else String.substring 0 (Z.to_nat n) s.

Definition lengthZ (s : string) : Z := Z.of_nat (String.length s).

(** [QString::split(sep)] for a one-character separator, empty parts kept. *)
Fixpoint split_aux (sep : ascii) (s cur : string) : list string :=
  match s with
  | EmptyString => [rev_string cur ""]
  | String c s' =>
      if Ascii.eqb c sep
      then rev_string cur "" :: split_aux sep s' ""
      else split_aux sep s' (String c cur)
  end.

Definition split (sep : ascii) (s : string) : list string :=
  split_aux sep s "".

(** Decimal numerals. *)
Definition digitOf (c : ascii) : option Z :=
  let n := nat_of_ascii c in
  if ((48 <=? n)%nat && (n <=? 57)%nat)
  then Some (Z.of_nat n - 48)%Z else None.

(** The longest prefix of digits of [s]: its value continuing [acc], how
    many digits were read, and the rest of the string. *)
Fixpoint readDigits (s : string) (acc : Z) (count : nat)
    : Z * nat * string :=
  match s with
  | String c s' =>
      match digitOf c with
      | Some d => readDigits s' (10 * acc + d)%Z (S count)
      | None => (acc, count, s)
      end
  | EmptyString => (acc, count, s)
  end.

Definition readSign (s : string) : bool * string :=
  match s with
  | String "-" s' => (true, s')
  | String "+" s' => (false, s')
  | _ => (false, s)
  end.

(** [QString::toInt()], base 10: surrounding white space, an optional sign
    and digits; the result is 0 when the text is not such a numeral or the
    value does not fit in a 32-bit [int]. *)
Definition toInt (s : string) : Z :=
  let '(neg, body) := readSign (trimmed s) in
  match readDigits body 0 0 with
  | (v, S _, EmptyString) =>
      let n := if neg then (- v)%Z else v in
      if ((- 2147483648 <=? n)%Z && (n <=? 2147483647)%Z) then n else 0%Z
  | _ => 0%Z
  end.

(** [QString::toDouble()] on plain decimal notation: sign, digits, an
    optional fraction and an optional exponent; 0 when the text has another
    shape.  (Qt also reads "inf" and "nan", which have no counterpart among
    the reals; such texts are outside the embedding.) *)
Definition readExponent (s : string) : option Z :=
  match s with
  | EmptyString => Some 0%Z
  | String c s' =>
      if (Ascii.eqb c "e" || Ascii.eqb c "E")%bool then
        let '(neg, body) := readSign s' in
        match readDigits body 0 0 with
        | (v, S _, EmptyString) => Some (if neg then (- v)%Z else v)
        | _ => None
        end
      else None
  end.

Definition toDouble (s : string) : R :=
  let '(neg, body) := readSign (trimmed s) in
  let '(ip, ni, rest) := readDigits body 0 0 in
  let '(mant, nf, rest') :=
    match rest with
    | String "." r => let '(m, n, r') := readDigits r ip 0 in (m, n, r')
    | _ => (ip, O, rest)
    end in
  match (ni + nf)%nat, readExponent rest' with
  | S _, Some e =>
      let v := (IZR mant * powerRZ 10 (e - Z.of_nat nf))%R in
      if neg then (- v)%R else v
  | _, _ => 0%R
  end.

End Qt.

Import Qt.

(** ** robots.h *)

(** [Robot::RotationDirection]. *)
Inductive RotationDirection := NoRotation | RotateLeft | RotateRight.

#[global] Instance RotationDirection_eq_dec : EqDecision RotationDirection.
Proof. solve_decision. Defined.

(** The abstract base class [Robot]: the members every robot carries.
    [pos] is the position of the underlying [QGraphicsItem], written by
    [setPos]. *)
Module Robot.

Local Open Scope R_scope.

Record t := mk {
  positionX : R;
  positionY : R;
  speed : Z;
  color : QColor;
  isMoving : bool;
  pos : QPointF
}.

(** [Robot(posX, posY, speed)]: [color] is left for the subclass to set,
    [isMoving] starts [false]. *)
Definition new (posX posY : R) (spd : Z) : t :=
  {| positionX := posX; positionY := posY; speed := spd;
     color := noColor; isMoving := false; pos := mkPoint 0 0 |}.

Definition setPos (x y : R) (r : t) : t :=
  {| positionX := positionX r; positionY := positionY r; speed := speed r;
     color := color r; isMoving := isMoving r; pos := mkPoint x y |}.

Definition setPosition (x y : R) (r : t) : t :=
  {| positionX := x; positionY := y; speed := speed r;
     color := color r; isMoving := isMoving r; pos := pos r |}.

Definition setColor (c : QColor) (r : t) : t :=
  {| positionX := positionX r; positionY := positionY r; speed := speed r;
     color := c; isMoving := isMoving r; pos := pos r |}.

Definition setMoving (b : bool) (r : t) : t :=
  {| positionX := positionX r; positionY := positionY r; speed := speed r;
     color := color r; isMoving := b; pos := pos r |}.

(** [boundingRect()]: the robot's extent in its own coordinates. *)
Definition boundingRect : QRectF := mkRect (-20) (-20) 40 40.

(** The bounding rectangle in scene coordinates: [boundingRect] moved to
    the item's [pos]. *)
Definition sceneBoundingRect (r : t) : QRectF :=
  mkRect (px (pos r) + rx boundingRect) (py (pos r) + ry boundingRect)
         (rw boundingRect) (rh boundingRect).

(** [rotatePoint(point, angle)]. *)
Definition rotatePoint (point : QPointF) (angle : R) : QPointF :=
  mkPoint (cos angle * px point - sin angle * py point)
          (sin angle * px point + cos angle * py point).

(** The target point of one update and the interpolation step, shared by
    the two [update] overrides (they repeat the same four statements). *)
Definition radAngle (orientation : Z) : R := IZR orientation * PI / 180.

Definition targetX (r : t) (orientation : Z) : R :=
  positionX r + IZR (speed r) * cos (radAngle orientation).

Definition targetY (r : t) (orientation : Z) : R :=
  positionY r + IZR (speed r) * sin (radAngle orientation).

Definition interpolate (r : t) (orientation : Z) : t :=
  setPosition (positionX r + 0.1 * (targetX r orientation - positionX r))
              (positionY r + 0.1 * (targetY r orientation - positionY r)) r.

(** The field-of-vision trapezoid both [paint] overrides build: the four
    corners of [viewField] in drawing order (baseLeft, baseRight, topRight,
    topLeft), already rotated by the orientation. *)
Definition robotRadius : R := 20.

Definition halfTopWidth (detectionRadius : R) : R :=
  detectionRadius * tan (PI / 6).

Definition halfBaseWidth (detectionRadius : R) : R :=
  let hb := halfTopWidth detectionRadius / 4 in
  if Rltb (robotRadius / 3) hb then robotRadius / 3 else hb.

Definition viewField (orientation : Z) (detectionRadius : R) : list QPointF :=
  let radOrientation := IZR orientation * PI / 180 in
  let baseLeft := mkPoint robotRadius (- halfBaseWidth detectionRadius) in
  let baseRight := mkPoint robotRadius (halfBaseWidth detectionRadius) in
  let topRight :=
    mkPoint (detectionRadius + robotRadius) (halfTopWidth detectionRadius) in
  let topLeft :=
    mkPoint (detectionRadius + robotRadius) (- halfTopWidth detectionRadius) in
  [ rotatePoint baseLeft radOrientation;
    rotatePoint baseRight radOrientation;
    rotatePoint topRight radOrientation;
    rotatePoint topLeft radOrientation ].

End Robot.

(** [class AutonomousRobot : public Robot]. *)
Module AutonomousRobot.

Local Open Scope R_scope.

Record t := mk {
  base : Robot.t;
  detectionRadius : R;
  avoidanceAngle : R;
  angle : Z;
  orientation : Z
}.

Definition setBase (b : Robot.t) (r : t) : t :=
  {| base := b; detectionRadius := detectionRadius r;
     avoidanceAngle := avoidanceAngle r; angle := angle r;
     orientation := orientation r |}.

Definition setOrientation (o : Z) (r : t) : t :=
  {| base := base r; detectionRadius := detectionRadius r;
     avoidanceAngle := avoidanceAngle r; angle := angle r;
     orientation := o |}.

(** The constructor's [switch (orient)]. *)
Definition orientationOfCode (orient : Z) : Z :=
  match orient with
  | 0 => 270
  | 1 => 0
  | 2 => 90
  | 3 => 180
  | _ => 0
  end%Z.

(** [AutonomousRobot(posX, posY, orient, detectRadius, avoidAngle, speed)]. *)
Definition new (posX posY : R) (orient : Z) (detectRadius avoidAngle : R)
    (spd : Z) : t :=
  {| base := Robot.setPos posX posY
               (Robot.setColor blue (Robot.new posX posY spd));
     detectionRadius := detectRadius;
     avoidanceAngle := avoidAngle;
     angle := double_to_int avoidAngle;
     orientation := orientationOfCode orient |}.

(** The two [if]s under the comment "Normalize orientation". *)
Definition normalize (o : Z) : Z :=
  let o1 := if (o <? 0)%Z then (o + 360)%Z else o in
  if (360 <=? o1)%Z then (o1 - 360)%Z else o1.

(** [update()].  [detectObstacle] is defined in robots.cpp, which is not
    part of the sources at hand: it is a parameter, asked once, on the robot
    as it stands after [setPos]. *)
Definition update (detectObstacle : t -> bool) (r : t) : t :=
  let b1 := Robot.interpolate (base r) (orientation r) in
  let r1 := setOrientation (normalize (orientation r)) (setBase b1 r) in
  let r2 :=
    setBase (Robot.setPos (Robot.positionX b1) (Robot.positionY b1) b1) r1 in
  if detectObstacle r2
  then setOrientation
         (double_to_int (IZR (orientation r2) + avoidanceAngle r2)) r2
  else r2.

(** [paint]: the path drawn as the field of vision. *)
Definition paint (r : t) : list QPointF :=
  Robot.viewField (orientation r) (detectionRadius r).

End AutonomousRobot.

(** [class RemoteRobot : public Robot]. *)
Module RemoteRobot.

Local Open Scope R_scope.

Record t := mk {
  base : Robot.t;
  orientation : Z;
  detectionRadius : R;
  rotationDirection : RotationDirection
}.

Definition setBase (b : Robot.t) (r : t) : t :=
  {| base := b; orientation := orientation r;
     detectionRadius := detectionRadius r;
     rotationDirection := rotationDirection r |}.

Definition setRotationDirection (d : RotationDirection) (r : t) : t :=
  {| base := base r; orientation := orientation r;
     detectionRadius := detectionRadius r;
     rotationDirection := d |}.

(** [RemoteRobot(posX, posY, speed, detectionRadius)]: there is no
    orientation argument; the member initialiser [int orientation = 0]
    decides the heading. *)
Definition new (posX posY : R) (spd : Z) (detectRadius : R) : t :=
  {| base := Robot.setColor magenta
               (Robot.setPos posX posY (Robot.new posX posY spd));
     orientation := 0;
     detectionRadius := detectRadius;
     rotationDirection := NoRotation |}.

(** Modelled from the spec: the bodies of [moveForward], [stop],
    [rotateLeft], [rotateRight] and [getRotationDirection] are in
    robots.cpp, which is missing.  The specification gives them as:
    moveForward sets moving to true, stop sets moving to false, rotateLeft
    and rotateRight set the rotation intent; the getter reads the member. *)
Definition moveForward (r : t) : t := setBase (Robot.setMoving true (base r)) r.

Definition stop (r : t) : t := setBase (Robot.setMoving false (base r)) r.

Definition rotateLeft (r : t) : t := setRotationDirection RotateLeft r.

Definition rotateRight (r : t) : t := setRotationDirection RotateRight r.

Definition getRotationDirection (r : t) : RotationDirection :=
  rotationDirection r.

(** [update()], with [detectObstacle] a parameter as for the autonomous
    robot. *)
Definition update (detectObstacle : t -> bool) (r : t) : t :=
  let b1 := Robot.interpolate (base r) (orientation r) in
  let r1 :=
    setBase (Robot.setPos (Robot.positionX b1) (Robot.positionY b1) b1) r in
  if detectObstacle r1 then stop r1 else r1.

Definition paint (r : t) : list QPointF :=
  Robot.viewField (orientation r) (detectionRadius r).

End RemoteRobot.

(** ** obstacle.h *)

Module Obstacle.

(** Modelled from the spec: the constructor [Obstacle(x, y, width)] is
    declared in obstacle.h and defined in a file that is missing.  The
    specification describes an obstacle as an axis-aligned square region
    given by its top-left corner and side length, immutable once made. *)
Record t := mk { rect : QRectF }.

Definition new (x y width : R) : t := {| rect := mkRect x y width width |}.

End Obstacle.

(** ** mainwindow.cpp *)

Module MainWindow.

Local Open Scope string_scope.

(** An item of the graphics scene, with the class [dynamic_cast] finds. *)
Inductive Item :=
  | AutonomousItem (r : AutonomousRobot.t)
  | RemoteItem (r : RemoteRobot.t)
  | ObstacleItem (o : Obstacle.t).

Definition isRobot (it : Item) : bool :=
  match it with ObstacleItem _ => false | _ => true end.

Definition isObstacle (it : Item) : bool :=
  match it with ObstacleItem _ => true | _ => false end.

Definition itemRect (it : Item) : QRectF :=
  match it with
  | AutonomousItem r => Robot.sceneBoundingRect (AutonomousRobot.base r)
  | RemoteItem r => Robot.sceneBoundingRect (RemoteRobot.base r)
  | ObstacleItem o => Obstacle.rect o
  end.

(** The window.  The scene and the two [QList]s hold pointers to the same
    robot objects, so each robot is stored once, in its list; the obstacles
    live in the scene only.  [selectedRobot] points into [remoteRobots] and
    is kept as an index; [timerActive] is [timer->isActive()]. *)
Record t := mk {
  autonomousRobots : list AutonomousRobot.t;
  remoteRobots : list RemoteRobot.t;
  obstacles : list Obstacle.t;
  selectedRobot : option nat;
  timerActive : bool;
  deletingMode : bool;
  rDeletingMode : bool
}.

(** The state the constructor leaves: an empty scene, the timer stopped. *)
Definition new : t :=
  {| autonomousRobots := []; remoteRobots := []; obstacles := [];
     selectedRobot := None; timerActive := false;
     deletingMode := false; rDeletingMode := false |}.

Definition setAutonomousRobots (l : list AutonomousRobot.t) (w : t) : t :=
  {| autonomousRobots := l; remoteRobots := remoteRobots w;
     obstacles := obstacles w; selectedRobot := selectedRobot w;
     timerActive := timerActive w; deletingMode := deletingMode w;
     rDeletingMode := rDeletingMode w |}.

Definition setRemoteRobots (l : list RemoteRobot.t) (w : t) : t :=
  {| autonomousRobots := autonomousRobots w; remoteRobots := l;
     obstacles := obstacles w; selectedRobot := selectedRobot w;
     timerActive := timerActive w; deletingMode := deletingMode w;
     rDeletingMode := rDeletingMode w |}.

Definition setObstacles (l : list Obstacle.t) (w : t) : t :=
  {| autonomousRobots := autonomousRobots w; remoteRobots := remoteRobots w;
     obstacles := l; selectedRobot := selectedRobot w;
     timerActive := timerActive w; deletingMode := deletingMode w;
     rDeletingMode := rDeletingMode w |}.

Definition setSelectedRobot (s : option nat) (w : t) : t :=
  {| autonomousRobots := autonomousRobots w; remoteRobots := remoteRobots w;
     obstacles := obstacles w; selectedRobot := s;
     timerActive := timerActive w; deletingMode := deletingMode w;
     rDeletingMode := rDeletingMode w |}.

Definition setTimerActive (b : bool) (w : t) : t :=
  {| autonomousRobots := autonomousRobots w; remoteRobots := remoteRobots w;
     obstacles := obstacles w; selectedRobot := selectedRobot w;
     timerActive := b; deletingMode := deletingMode w;
     rDeletingMode := rDeletingMode w |}.

(** [scene()->items()]: every entity of the scene. *)
Definition sceneItems (w : t) : list Item :=
  (AutonomousItem <$> autonomousRobots w) ++
  (RemoteItem <$> remoteRobots w) ++
  (ObstacleItem <$> obstacles w).

(** [scene()->items(area)]: the items whose region intersects [area]. *)
Definition itemsIn (w : t) (area : QRectF) : list Item :=
  List.filter (fun it => intersects area (itemRect it)) (sceneItems w).

(** [startSimulation], [stopSimulation]. *)
Definition startSimulation (w : t) : t :=
  if timerActive w then w else setTimerActive true w.

Definition stopSimulation (w : t) : t :=
  if timerActive w then setTimerActive false w else w.

(** [deleteObstacle], [deleteRobot]: each toggles its deleting mode (the
    pens and the style sheet they also change are not part of the state). *)
Definition deleteObstacle (w : t) : t :=
  {| autonomousRobots := autonomousRobots w; remoteRobots := remoteRobots w;
     obstacles := obstacles w; selectedRobot := selectedRobot w;
     timerActive := timerActive w; deletingMode := negb (deletingMode w);
     rDeletingMode := rDeletingMode w |}.

Definition deleteRobot (w : t) : t :=
  {| autonomousRobots := autonomousRobots w; remoteRobots := remoteRobots w;
     obstacles := obstacles w; selectedRobot := selectedRobot w;
     timerActive := timerActive w; deletingMode := deletingMode w;
     rDeletingMode := negb (rDeletingMode w) |}.

(** The text both creation slots append to their message. *)
Definition occupant (obstacleWord : string) (found : list Item) : string :=
  let robotFound := existsb isRobot found in
  let obstacleFound := existsb isObstacle found in
  if robotFound && obstacleFound then "another robot and an obstacle."
  else if robotFound then "another robot."
  else if obstacleFound then obstacleWord
  else "".

(** [createObstacle()].  The dialog is an input: [None] when it was
    cancelled, otherwise the (x, y, width) it returns.  The result pairs the
    new window with the warning shown, if any. *)
Definition createObstacle (dialog : option (Z * Z * Z)) (w : t)
    : t * option string :=
  match dialog with
  | Some (x, y, width) =>
      let creationObstacleArea :=
        mkRect (IZR x) (IZR y) (IZR width) (IZR width) in
      let foundItems := itemsIn w creationObstacleArea in
      match foundItems with
      | _ :: _ =>
          (w, Some ("Cannot place an obstacle here. The space is already occupied by "
                    ++ occupant "another obstacle." foundItems))
      | [] =>
          (setObstacles
             (obstacles w ++ [Obstacle.new (IZR x) (IZR y) (IZR width)]) w,
           None)
      end
  | None => (w, None)
  end.

(** What [CreateRobotDialog] returns when accepted. *)
Record RobotDialog := mkRobotDialog {
  getRobotType : Z;
  getOrientation : Z;
  getSpeed : Z;
  getDetectionRadius : R;
  getX : R;
  getY : R;
  getAvoidanceAngle : R
}.

(** [createRobot()]. *)
Definition createRobot (dialog : option RobotDialog) (w : t)
    : t * option string :=
  match dialog with
  | Some d =>
      let x := getX d in
      let y := getY d in
      let creationArea := mkRect (x - 20)%R (y - 20)%R 40%R 40%R in
      let foundItems := itemsIn w creationArea in
      match foundItems with
      | _ :: _ =>
          (w, Some ("Cannot place a robot here. The space is already occupied by "
                    ++ occupant "an obstacle." foundItems))
      | [] =>
          if (getRobotType d =? 0)%Z then
            (setAutonomousRobots
               (autonomousRobots w ++
                [AutonomousRobot.new x y (getOrientation d)
                   (getDetectionRadius d) (getAvoidanceAngle d) (getSpeed d)])
               w, None)
          else
            (setRemoteRobots
               (remoteRobots w ++
                [RemoteRobot.new x y (getSpeed d) (getDetectionRadius d)])
               w, None)
      end
  | None => (w, None)
  end.

(** [selectRobot], and the four slots that steer the selected robot. *)
Definition selectRobot (i : nat) (w : t) : t := setSelectedRobot (Some i) w.

Definition onSelected (f : RemoteRobot.t -> RemoteRobot.t) (w : t) : t :=
  match selectedRobot w with
  | Some i => setRemoteRobots (alter f i (remoteRobots w)) w
  | None => w
  end.

Definition moveRobot (w : t) : t :=
  if timerActive w then onSelected RemoteRobot.moveForward w else w.

Definition rotateRobotRight (w : t) : t :=
  if timerActive w then onSelected RemoteRobot.rotateRight w else w.

Definition rotateRobotLeft (w : t) : t :=
  if timerActive w then onSelected RemoteRobot.rotateLeft w else w.

Definition stopRobot (w : t) : t := onSelected RemoteRobot.stop w.

(** [clearScene()]. *)
Definition clearScene (w : t) : t :=
  setSelectedRobot None
    (setRemoteRobots [] (setAutonomousRobots [] (setObstacles [] w))).

(** *** The simulation tick *)

(** One entry per call of a robot's [update()]: which list the robot is in
    and its index there.  The source keeps no such record; it is the
    observation that statements about the tick are made of. *)
Inductive UpdateCall :=
  | AutonomousUpdate (i : nat)
  | RemoteUpdate (i : nat).

Section Tick.

(** [detectObstacle()] of either class looks at the scene: it is given the
    items of the scene as they stand when it is called, and the robot that
    asks. *)
Variable autonomousDetect : list Item -> AutonomousRobot.t -> bool.
Variable remoteDetect : list Item -> RemoteRobot.t -> bool.

(** The body of the first loop for the robot at index [i]. *)
Definition stepAutonomous (st : t * list UpdateCall) (i : nat)
    : t * list UpdateCall :=
  let '(w, calls) := st in
  match autonomousRobots w !! i with
  | Some robot =>
      let detect r :=
        autonomousDetect
          (sceneItems (setAutonomousRobots (<[i:=r]> (autonomousRobots w)) w))
          r in
      (setAutonomousRobots
         (<[i:=AutonomousRobot.update detect robot]> (autonomousRobots w)) w,
       (calls ++ [AutonomousUpdate i])%list)
  | None => st
  end.

(** The body of the second loop.  [rotateRobotRight()] and
    [rotateRobotLeft()] act through [selectedRobot], which may be the robot
    of this iteration: [isMoving] is read from the list afterwards. *)
Definition stepRemote (st : t * list UpdateCall) (i : nat)
    : t * list UpdateCall :=
  let '(w, calls) := st in
  match remoteRobots w !! i with
  | Some remoteRobot =>
      let w1 :=
        if decide (RemoteRobot.getRotationDirection remoteRobot = RotateRight)
        then rotateRobotRight w
        else if decide (RemoteRobot.getRotationDirection remoteRobot
                        = RotateLeft)
        then rotateRobotLeft w
        else w in
      match remoteRobots w1 !! i with
      | Some robot =>
          if Robot.isMoving (RemoteRobot.base robot) then
            let detect r :=
              remoteDetect
                (sceneItems (setRemoteRobots (<[i:=r]> (remoteRobots w1)) w1))
                r in
            (setRemoteRobots
               (<[i:=RemoteRobot.update detect robot]> (remoteRobots w1)) w1,
             (calls ++ [RemoteUpdate i])%list)
          else (w1, calls)
      | None => (w1, calls)
      end
  | None => st
  end.

(** [updateRobots()]: the two range-based loops, each over the indices of
    its list. *)
Definition updateRobotsFrom (st : t * list UpdateCall)
    : t * list UpdateCall :=
  let st1 :=
    foldl stepAutonomous st (seq 0 (length (autonomousRobots (fst st)))) in
  foldl stepRemote st1 (seq 0 (length (remoteRobots (fst st1)))).

Definition updateRobots (w : t) : t * list UpdateCall :=
  updateRobotsFrom (w, []).

(** [n] timer ticks in a row. *)
Fixpoint ticks (n : nat) (w : t) : t :=
  match n with
  | O => w
  | S n' => ticks n' (fst (updateRobots w))
  end.

End Tick.

(** *** Loading a scene file *)

(** [parseAttributes]: the lines that are not blank, then the key = value
    pairs among them; a later pair overwrites an earlier one with the same
    key. *)
Definition addAttribute (params : gmap string string) (line : string)
    : gmap string string :=
  match split "=" line with
  | [key; value] => <[trimmed key := trimmed value]> params
  | _ => params
  end.

Definition parseAttributes (attributes : string) : gmap string string :=
  let rawLines := split "010" attributes in
  let lines :=
    List.filter (fun line => negb (isEmpty (trimmed line))) rawLines in
  foldl addAttribute ∅ lines.

(** [QMap::value(key)]: an empty string when the key is absent. *)
Definition value (params : gmap string string) (key : string) : string :=
  default "" (params !! key).

(** [processObject], after the attributes are parsed. *)
Definition processParams (type : string) (params : gmap string string)
    (w : t) : t :=
  let x := toInt (value params "positionX") in
  let y := toInt (value params "positionY") in
  let speed := toInt (value params "speed") in
  let orientation := toInt (value params "orientation") in
  let detectionRadius := toDouble (value params "detectionRadius") in
  let avoidanceAngle := toDouble (value params "avoidanceAngle") in
  let size := toInt (value params "width") in
  if String.eqb type "AutonomousRobot" then
    setAutonomousRobots
      (autonomousRobots w ++
       [AutonomousRobot.new (IZR x) (IZR y) orientation detectionRadius
          avoidanceAngle speed]) w
  else if String.eqb type "RemoteRobot" then
    setRemoteRobots
      (remoteRobots w ++
       [RemoteRobot.new (IZR x) (IZR y) speed detectionRadius]) w
  else if String.eqb type "Obstacle" then
    setObstacles
      (obstacles w ++ [Obstacle.new (IZR x) (IZR y) (IZR size)]) w
  else w.

Definition processObject (type attributes : string) (w : t) : t :=
  processParams type (parseAttributes attributes) w.

(** The state of the reading loop of [loadSceneFromFile]. *)
Record Loader := mkLoader {
  window : t;
  buffer : string;
  currentType : string
}.

Definition loadLine (st : Loader) (rawLine : string) : Loader :=
  let line := trimmed rawLine in
  if isEmpty line || startsWith line "#" then st
  else if endsWith line "{" then
    {| window := window st; buffer := "";
       currentType := trimmed (left line (lengthZ line - 1)) |}
  else if startsWith line "}" then
    if negb (isEmpty (currentType st)) then
      {| window := processObject (currentType st) (buffer st) (window st);
         buffer := buffer st; currentType := "" |}
    else st
  else
    {| window := window st;
       buffer := buffer st ++ line ++ String "010" "";
       currentType := currentType st |}.

(** [loadSceneFromFile].  The file is an input: [None] when it cannot be
    opened, otherwise its text, read line by line. *)
Definition loadSceneFromFile (file : option string) (w : t) : t :=
  match file with
  | None => w
  | Some text =>
      window (foldl loadLine
                {| window := w; buffer := ""; currentType := "" |}
                (split "010" text))
  end.

(** [onLoadFileClicked()].  The name the file dialog returns (empty when it
    was cancelled) and the file system are inputs. *)
Definition onLoadFileClicked (fileName : string)
    (readFile : string -> option string) (w : t) : t :=
  if isEmpty fileName then w else loadSceneFromFile (readFile fileName) w.

End MainWindow.

(** ** Notions the properties are stated with *)

Module Geometry.

Local Open Scope R_scope.

(** The robot's own position members, as a point. *)
Definition position (b : Robot.t) : QPointF :=
  mkPoint (Robot.positionX b) (Robot.positionY b).

(** The target point an update computes. *)
Definition target (b : Robot.t) (orientation : Z) : QPointF :=
  mkPoint (Robot.targetX b orientation) (Robot.targetY b orientation).

Definition dist (p q : QPointF) : R :=
  sqrt ((px q - px p) * (px q - px p) + (py q - py p) * (py q - py p)).

(** [p] lies on the open segment from [a] to [b], a fraction [k] of the
    way along. *)
Definition at_fraction (k : R) (a b p : QPointF) : Prop :=
  px p = px a + k * (px b - px a) /\ py p = py a + k * (py b - py a).

Definition strictly_between (a b p : QPointF) : Prop :=
  a <> b /\ exists k, 0 < k < 1 /\ at_fraction k a b p.

(** Coordinates of a point of the robot's frame along the heading of
    [theta] radians and perpendicular to it. *)
Definition along (theta : R) (p : QPointF) : R :=
  cos theta * px p + sin theta * py p.

Definition across (theta : R) (p : QPointF) : R :=
  - sin theta * px p + cos theta * py p.

Definition degrees (d : R) : R := d * PI / 180.

(** The half-angle of the cone the trapezoid opens: seen from the middle
    of the near edge, the angle between the heading and a far corner.  The
    far corner is [halfTopWidth] off the axis, and the two edges are
    [(detectionRadius + robotRadius) - robotRadius] apart. *)
Definition coneHalfAngle (detectionRadius : R) : R :=
  atan (Robot.halfTopWidth detectionRadius /
        ((detectionRadius + Robot.robotRadius) - Robot.robotRadius)).

End Geometry.

(** Notions about the scene: overlap with what is already placed, what a
    conflict message names, what a tick is expected to call, and which keys
    a block of a scene file leaves out. *)
Module Scene.

Import MainWindow.
Local Open Scope string_scope.

(** [it] is an entity of the scene whose region overlaps [area]. *)
Definition overlapping (w : t) (area : QRectF) (it : Item) : Prop :=
  In it (sceneItems w) /\ intersects area (itemRect it) = true.

Definition robotOverlaps (w : t) (area : QRectF) : Prop :=
  exists it, overlapping w area it /\ isRobot it = true.

Definition obstacleOverlaps (w : t) (area : QRectF) : Prop :=
  exists it, overlapping w area it /\ isObstacle it = true.

(** The end of a conflict message tells whether the occupants of [area]
    are robots, obstacles, or both. *)
Definition names_occupants (w : t) (area : QRectF)
    (obstacleWord msg : string) : Prop :=
  (robotOverlaps w area /\ obstacleOverlaps w area /\
   msg = "another robot and an obstacle.") \/
  (robotOverlaps w area /\ ~ obstacleOverlaps w area /\
   msg = "another robot.") \/
  (~ robotOverlaps w area /\ obstacleOverlaps w area /\
   msg = obstacleWord).

(** The areas the two creation slots test. *)
Definition obstacleArea (x y width : Z) : QRectF :=
  mkRect (IZR x) (IZR y) (IZR width) (IZR width).

Definition robotArea (d : RobotDialog) : QRectF :=
  mkRect (getX d - 20)%R (getY d - 20)%R 40%R 40%R.

(** The moving flag of the remote robot at index [i]. *)
Definition movingAt (w : t) (i : nat) : bool :=
  match remoteRobots w !! i with
  | Some r => Robot.isMoving (RemoteRobot.base r)
  | None => false
  end.

(** Every robot of the scene once: the autonomous robots, then the remote
    robots, each list in its order. *)
Definition everyRobotOnce (w : t) : list UpdateCall :=
  (AutonomousUpdate <$> seq 0 (length (autonomousRobots w))) ++
  (RemoteUpdate <$> seq 0 (length (remoteRobots w))).

(** The same, without the remote robots that are not moving. *)
Definition everyMovingRobotOnce (w : t) : list UpdateCall :=
  (AutonomousUpdate <$> seq 0 (length (autonomousRobots w))) ++
  (RemoteUpdate <$>
     List.filter (movingAt w) (seq 0 (length (remoteRobots w)))).

(** The part of a remote robot that the steering slots never write: its
    base members and its orientation. *)
Definition pose (r : RemoteRobot.t) : Robot.t * Z :=
  (RemoteRobot.base r, RemoteRobot.orientation r).

(** What neither loop writes. *)
Definition frame (w w' : t) : Prop :=
  obstacles w' = obstacles w /\
  selectedRobot w' = selectedRobot w /\
  timerActive w' = timerActive w.

(** The window [stepRemote] goes on with once the rotation intent of the
    robot at hand has been looked at. *)
Definition afterIntent (w : t) (remoteRobot : RemoteRobot.t) : t :=
  if decide (RemoteRobot.getRotationDirection remoteRobot = RotateRight)
  then rotateRobotRight w
  else if decide (RemoteRobot.getRotationDirection remoteRobot = RotateLeft)
  then rotateRobotLeft w
  else w.

(** No line of the block [attributes] assigns [key]: a line assigns a key
    when it has exactly one "=" and the text before it, trimmed, is the
    key. *)
Definition assigns (key line : string) : bool :=
  match split "=" line with
  | [k; _] => String.eqb (trimmed k) key
  | _ => false
  end.

Definition omits (attributes key : string) : bool :=
  forallb (fun line => negb (assigns key line)) (split "010" attributes).

(** The keys [processObject] reads. *)
Definition recognizedKeys : list string :=
  ["positionX"; "positionY"; "speed"; "orientation"; "detectionRadius";
   "avoidanceAngle"; "width"].


(** *** Concrete scenes *)

Definition nl : string := String "010" "".

(** A scene file with the same obstacle twice. *)
Definition twoObstaclesFile : string :=
  "Obstacle {" ++ nl ++
  "positionX = 10" ++ nl ++
  "positionY = 10" ++ nl ++
  "width = 20" ++ nl ++
  "}" ++ nl ++
  "Obstacle {" ++ nl ++
  "positionX = 10" ++ nl ++
  "positionY = 10" ++ nl ++
  "width = 20" ++ nl ++
  "}" ++ nl.

(** A window holding one obstacle and one remote robot. *)
Definition occupiedWindow : t :=
  setRemoteRobots [RemoteRobot.new 200 200 5 50]
    (setObstacles [Obstacle.new 10 10 20] new).

(** A running window with a single remote robot, standing still. *)
Definition idleWindow : t :=
  setTimerActive true (setRemoteRobots [RemoteRobot.new 100 100 5 50] new).

(** A running window with two remote robots and nothing else. *)
Definition twoRemotes : t :=
  setTimerActive true
    (setRemoteRobots
       [RemoteRobot.new 100 100 5 50; RemoteRobot.new 300 100 5 50] new).

End Scene.

(** Notions for the behaviour of robots over several updates, of the scene
    as a population of entities, and of the loader line by line. *)
Module Behaviour.

Import MainWindow.
Local Open Scope string_scope.

(** The squared distance of a point from the origin. *)
Definition norm2 (p : QPointF) : R := (px p * px p + py p * py p)%R.

(** [n] updates of an autonomous robot in a row, none of which detects an
    obstacle. *)
Fixpoint undisturbed (n : nat) (r : AutonomousRobot.t) : AutonomousRobot.t :=
  match n with
  | O => r
  | S n' => undisturbed n' (AutonomousRobot.update (fun _ => false) r)
  end.

(** The item position and the position members agree. *)
Definition synced (b : Robot.t) : Prop :=
  Robot.pos b = mkPoint (Robot.positionX b) (Robot.positionY b).

(** The robot base of an item that is a robot. *)
Definition robotBase (it : Item) : option Robot.t :=
  match it with
  | AutonomousItem r => Some (AutonomousRobot.base r)
  | RemoteItem r => Some (RemoteRobot.base r)
  | ObstacleItem _ => None
  end.

(** The number of entities in the scene. *)
Definition entityCount (w : t) : nat := length (sceneItems w).

(** The reading loop of [loadSceneFromFile] over lines already split. *)
Definition loadLines (st : Loader) (lines : list string) : Loader :=
  foldl loadLine st lines.

(** A line the loader skips: blank, or a comment. *)
Definition isSkipped (line : string) : bool :=
  isEmpty (trimmed line) || startsWith (trimmed line) "#".

(** A line that opens a block, closes a block, or belongs to its body. *)
Definition isHeader (line : string) : bool :=
  negb (isSkipped line) && endsWith (trimmed line) "{".

Definition isClosing (line : string) : bool :=
  negb (isSkipped line) && negb (endsWith (trimmed line) "{")
  && startsWith (trimmed line) "}".

Definition isBodyLine (line : string) : bool :=
  negb (isSkipped line) && negb (endsWith (trimmed line) "{")
  && negb (startsWith (trimmed line) "}").

(** The buffer the loader has gathered from the body lines of a block. *)
Definition bodyText (lines : list string) : string :=
  fold_right (fun line acc => trimmed line ++ String "010" "" ++ acc) ""
             lines.

(** The type name a header line announces. *)
Definition headerType (line : string) : string :=
  trimmed (left (trimmed line) (lengthZ (trimmed line) - 1)).

(** The type names [processObject] knows. *)
Definition knownType (type : string) : bool :=
  String.eqb type "AutonomousRobot" || String.eqb type "RemoteRobot"
  || String.eqb type "Obstacle".

(** [c] occurs in [s]. *)
Fixpoint hasChar (c : ascii) (s : string) : bool :=
  match s with
  | EmptyString => false
  | String c' s' => Ascii.eqb c' c || hasChar c s'
  end.

(** [w'] has every entity of [w], in the same place of its list, possibly
    followed by more, and differs in nothing else. *)
Definition extends (w w' : t) : Prop :=
  autonomousRobots w `prefix_of` autonomousRobots w' /\
  remoteRobots w `prefix_of` remoteRobots w' /\
  obstacles w `prefix_of` obstacles w' /\
  selectedRobot w' = selectedRobot w /\
  timerActive w' = timerActive w /\
  deletingMode w' = deletingMode w /\
  rDeletingMode w' = rDeletingMode w.

(** None of the lines, once trimmed, holds a line feed: so it is for the
    lines of a file. *)
Definition singleLines (lines : list string) : bool :=
  forallb (fun line => negb (hasChar "010" (trimmed line))) lines.

(** The state in which the loader starts on a window. *)
Definition startLoading (w : t) : Loader :=
  {| window := w; buffer := ""; currentType := "" |}.

End Behaviour.

(** ** Properties of the robot updates *)

Module RobotFacts.

Import Geometry.
Local Open Scope R_scope.

Lemma Int_part_IZR (z : Z) : Int_part (IZR z) = z.
Proof.
  unfold Int_part.
  rewrite <- (tech_up (IZR z) (z + 1)).
  - lia.
  - rewrite plus_IZR. lra.
  - rewrite plus_IZR. lra.
Qed.

Lemma double_to_int_IZR (z : Z) : double_to_int (IZR z) = z.
Proof.
  unfold double_to_int. destruct (Rle_dec 0 (IZR z)) as [H | H].
  - apply Int_part_IZR.
  - rewrite <- opp_IZR, Int_part_IZR. lia.
Qed.

Lemma Rltb_true (a b : R) : a < b -> Rltb a b = true.
Proof. intros H. unfold Rltb. destruct (Rlt_dec a b); [reflexivity | lra]. Qed.

Lemma Rltb_false (a b : R) : b <= a -> Rltb a b = false.
Proof. intros H. unfold Rltb. destruct (Rlt_dec a b); [lra | reflexivity]. Qed.

(** The interpolation step writes only the two position members. *)
Lemma interpolate_position (b : Robot.t) (o : Z) :
  at_fraction 0.1 (position b) (target b o) (position (Robot.interpolate b o)).
Proof. split; reflexivity. Qed.

Lemma target_apart (b : Robot.t) (o : Z) :
  (0 < Robot.speed b)%Z -> position b <> target b o.
Proof.
  intros Hs Heq. apply IZR_lt in Hs.
  unfold position, target, Robot.targetX, Robot.targetY in Heq.
  injection Heq as Hx Hy.
  pose proof (sin2_cos2 (Robot.radAngle o)) as Hu. unfold Rsqr in Hu.
  assert (Hc : cos (Robot.radAngle o) = 0) by nra.
  assert (Hsn : sin (Robot.radAngle o) = 0) by nra.
  rewrite Hc, Hsn in Hu. lra.
Qed.

Lemma dist_at_fraction (k : R) (a b p : QPointF) :
  0 <= k -> at_fraction k a b p -> dist a p = k * dist a b.
Proof.
  intros Hk [Hx Hy]. unfold dist. rewrite Hx, Hy.
  replace ((px a + k * (px b - px a) - px a) *
           (px a + k * (px b - px a) - px a) +
           (py a + k * (py b - py a) - py a) *
           (py a + k * (py b - py a) - py a))
    with ((k * k) *
          ((px b - px a) * (px b - px a) + (py b - py a) * (py b - py a)))
    by ring.
  rewrite sqrt_mult.
  - rewrite sqrt_square; [reflexivity | exact Hk].
  - apply Rmult_le_pos; exact Hk.
  - apply Rplus_le_le_0_compat; apply Rle_0_sqr.
Qed.

Lemma autonomous_update_base (detect : AutonomousRobot.t -> bool)
    (r : AutonomousRobot.t) :
  position (AutonomousRobot.base (AutonomousRobot.update detect r))
  = position (Robot.interpolate (AutonomousRobot.base r)
                                (AutonomousRobot.orientation r)).
Proof.
  unfold AutonomousRobot.update.
  destruct (detect _); reflexivity.
Qed.

Lemma remote_update_base (detect : RemoteRobot.t -> bool) (r : RemoteRobot.t) :
  position (RemoteRobot.base (RemoteRobot.update detect r))
  = position (Robot.interpolate (RemoteRobot.base r)
                                (RemoteRobot.orientation r)).
Proof.
  unfold RemoteRobot.update.
  destruct (detect _); reflexivity.
Qed.

Lemma interpolate_between (b : Robot.t) (o : Z) :
  (0 < Robot.speed b)%Z ->
  strictly_between (position b) (target b o)
                   (position (Robot.interpolate b o)) /\
  dist (position b) (position (Robot.interpolate b o))
  = 0.1 * dist (position b) (target b o).
Proof.
  intros Hs. split.
  - split; [apply target_apart, Hs |].
    exists 0.1. split; [lra | apply interpolate_position].
  - apply dist_at_fraction; [lra | apply interpolate_position].
Qed.

(** C1.  One update of a robot of either class, with speed [s] and
    orientation [theta] degrees, sets the position to
    [position + 0.1 * (target - position)], where
    [target = position + s * (cos theta_rad, sin theta_rad)]; when [s > 0]
    the new position is strictly between the old position and the target,
    at one tenth of the distance to the target. *)
Theorem update_moves_one_tenth
    (detectA : AutonomousRobot.t -> bool) (a : AutonomousRobot.t)
    (detectR : RemoteRobot.t -> bool) (m : RemoteRobot.t) :
  let a' := AutonomousRobot.update detectA a in
  let m' := RemoteRobot.update detectR m in
  let pa := position (AutonomousRobot.base a) in
  let ta := target (AutonomousRobot.base a) (AutonomousRobot.orientation a) in
  let pm := position (RemoteRobot.base m) in
  let tm := target (RemoteRobot.base m) (RemoteRobot.orientation m) in
  (px ta = px pa + IZR (Robot.speed (AutonomousRobot.base a))
                   * cos (degrees (IZR (AutonomousRobot.orientation a))) /\
   py ta = py pa + IZR (Robot.speed (AutonomousRobot.base a))
                   * sin (degrees (IZR (AutonomousRobot.orientation a))) /\
   at_fraction 0.1 pa ta (position (AutonomousRobot.base a')) /\
   ((0 < Robot.speed (AutonomousRobot.base a))%Z ->
    strictly_between pa ta (position (AutonomousRobot.base a')) /\
    dist pa (position (AutonomousRobot.base a')) = 0.1 * dist pa ta)) /\
  (px tm = px pm + IZR (Robot.speed (RemoteRobot.base m))
                   * cos (degrees (IZR (RemoteRobot.orientation m))) /\
   py tm = py pm + IZR (Robot.speed (RemoteRobot.base m))
                   * sin (degrees (IZR (RemoteRobot.orientation m))) /\
   at_fraction 0.1 pm tm (position (RemoteRobot.base m')) /\
   ((0 < Robot.speed (RemoteRobot.base m))%Z ->
    strictly_between pm tm (position (RemoteRobot.base m')) /\
    dist pm (position (RemoteRobot.base m')) = 0.1 * dist pm tm)).
Proof.
  cbv zeta. rewrite autonomous_update_base, remote_update_base.
  split; (split; [reflexivity |]; split; [reflexivity |];
          split; [apply interpolate_position |];
          intros Hs; apply interpolate_between, Hs).
Qed.

Lemma update_moves_one_tenth_witness :
  let a := AutonomousRobot.new 100 100 1 50 15 10 in
  let m := RemoteRobot.moveForward (RemoteRobot.new 100 100 10 50) in
  (strictly_between
     (position (AutonomousRobot.base a))
     (target (AutonomousRobot.base a) (AutonomousRobot.orientation a))
     (position (AutonomousRobot.base
                  (AutonomousRobot.update (fun _ => false) a))) /\
   dist (position (AutonomousRobot.base a))
        (position (AutonomousRobot.base
                     (AutonomousRobot.update (fun _ => false) a)))
   = 0.1 * dist (position (AutonomousRobot.base a))
                (target (AutonomousRobot.base a)
                        (AutonomousRobot.orientation a))) /\
  (strictly_between
     (position (RemoteRobot.base m))
     (target (RemoteRobot.base m) (RemoteRobot.orientation m))
     (position (RemoteRobot.base (RemoteRobot.update (fun _ => true) m))) /\
   dist (position (RemoteRobot.base m))
        (position (RemoteRobot.base (RemoteRobot.update (fun _ => true) m)))
   = 0.1 * dist (position (RemoteRobot.base m))
                (target (RemoteRobot.base m) (RemoteRobot.orientation m))).
Proof.
  intros a m.
  destruct (update_moves_one_tenth (fun _ => false) a (fun _ => true) m)
    as [(_ & _ & _ & Ha) (_ & _ & _ & Hm)].
  split; [apply Ha | apply Hm]; simpl; lia.
Defined.

(** The orientation an autonomous robot is left with by one update. *)
Lemma autonomous_update_orientation (detect : AutonomousRobot.t -> bool)
    (r : AutonomousRobot.t) :
  AutonomousRobot.orientation (AutonomousRobot.update detect r)
  = AutonomousRobot.normalize (AutonomousRobot.orientation r) \/
  AutonomousRobot.orientation (AutonomousRobot.update detect r)
  = double_to_int
      (IZR (AutonomousRobot.normalize (AutonomousRobot.orientation r))
       + AutonomousRobot.avoidanceAngle r).
Proof.
  unfold AutonomousRobot.update. destruct (detect _); [right | left];
    reflexivity.
Qed.

(** C2.  An autonomous robot built by the constructor with orientation code
    0 (heading 270 degrees) and avoidance angle 90, which detects an
    obstacle during its first update, ends that update with orientation
    360: the two normalising statements run before the avoidance angle is
    added, so the sum is left as it is, outside [0, 360). *)
Theorem update_leaves_orientation_360 :
  let r := AutonomousRobot.new 100 100 0 50 90 10 in
  AutonomousRobot.orientation r = 270%Z /\
  AutonomousRobot.orientation (AutonomousRobot.update (fun _ => true) r)
  = 360%Z /\
  (AutonomousRobot.orientation (AutonomousRobot.update (fun _ => true) r)
   <? 360)%Z = false.
Proof.
  assert (H : AutonomousRobot.orientation
                (AutonomousRobot.update (fun _ => true)
                   (AutonomousRobot.new 100 100 0 50 90 10)) = 360%Z).
  { unfold AutonomousRobot.update. simpl.
    change (AutonomousRobot.normalize 270) with 270%Z.
    replace (270 + 90) with (IZR 360) by lra.
    apply double_to_int_IZR. }
  cbv zeta. rewrite H. repeat split.
Qed.

(** *** The field-of-vision trapezoid *)

Lemma along_rotatePoint (theta : R) (p : QPointF) :
  along theta (Robot.rotatePoint p theta) = px p.
Proof.
  unfold along, Robot.rotatePoint. simpl.
  pose proof (sin2_cos2 theta) as H. unfold Rsqr in H.
  transitivity (px p * (sin theta * sin theta + cos theta * cos theta)).
  - ring.
  - rewrite H. ring.
Qed.

Lemma across_rotatePoint (theta : R) (p : QPointF) :
  across theta (Robot.rotatePoint p theta) = py p.
Proof.
  unfold across, Robot.rotatePoint. simpl.
  pose proof (sin2_cos2 theta) as H. unfold Rsqr in H.
  transitivity (py p * (sin theta * sin theta + cos theta * cos theta)).
  - ring.
  - rewrite H. ring.
Qed.

Lemma halfBaseWidth_min (d : R) :
  Robot.halfBaseWidth d
  = Rmin (Robot.robotRadius / 3) (Robot.halfTopWidth d / 4).
Proof.
  unfold Robot.halfBaseWidth, Rltb, Rmin. cbv zeta.
  destruct (Rlt_dec _ _) as [H | H]; destruct (Rle_dec _ _) as [H' | H'];
    try reflexivity; lra.
Qed.

Lemma degrees_30 : degrees 30 = PI / 6.
Proof. unfold degrees. field. Qed.

Lemma coneHalfAngle_30 (d : R) : 0 < d -> coneHalfAngle d = degrees 30.
Proof.
  intros Hd. unfold coneHalfAngle, Robot.halfTopWidth.
  replace (d * tan (PI / 6) / (d + Robot.robotRadius - Robot.robotRadius))
    with (tan (PI / 6)) by (field; lra).
  rewrite degrees_30. apply atan_tan.
  pose proof PI_RGT_0. lra.
Qed.

(** C7, as the code has it.  The four corners of the drawn trapezoid lie
    at [robotRadius] (near edge) and [detectionRadius + robotRadius] (far
    edge) along the heading; perpendicular to the heading the far corners
    are [detectionRadius * tan(30 degrees)] off the axis and the near
    corners [min(robotRadius/3, farHalfWidth/4)]; for a positive detection
    radius the cone it opens has a half-angle of 30 degrees. *)
Theorem viewField_trapezoid (orientation : Z) (detectionRadius : R) :
  let theta := degrees (IZR orientation) in
  let far := detectionRadius * tan (degrees 30) in
  let near := Rmin (Robot.robotRadius / 3) (far / 4) in
  Robot.robotRadius = 20 /\
  (exists baseLeft baseRight topRight topLeft,
     Robot.viewField orientation detectionRadius
     = [baseLeft; baseRight; topRight; topLeft] /\
     along theta baseLeft = Robot.robotRadius /\
     along theta baseRight = Robot.robotRadius /\
     along theta topRight = detectionRadius + Robot.robotRadius /\
     along theta topLeft = detectionRadius + Robot.robotRadius /\
     across theta baseLeft = - near /\
     across theta baseRight = near /\
     across theta topRight = far /\
     across theta topLeft = - far) /\
  (0 < detectionRadius -> coneHalfAngle detectionRadius = degrees 30).
Proof.
  cbv zeta. split; [reflexivity |]. split; [| apply coneHalfAngle_30].
  eexists _, _, _, _. split; [reflexivity |].
  rewrite degrees_30. unfold degrees, Robot.viewField.
  rewrite !along_rotatePoint, !across_rotatePoint. simpl.
  rewrite halfBaseWidth_min.
  repeat split; reflexivity.
Qed.

Lemma viewField_trapezoid_witness : coneHalfAngle 50 = degrees 30.
Proof. apply (viewField_trapezoid 0 50). lra. Defined.

(** C7 as stated fails: with detection radius 50 the cone's half-angle is
    not 60 degrees. *)
Lemma coneHalfAngle_not_60 : coneHalfAngle 50 <> degrees 60.
Proof.
  rewrite coneHalfAngle_30 by lra. unfold degrees.
  pose proof PI_RGT_0. lra.
Qed.

End RobotFacts.

(** ** Properties of placement and of loading *)

Module PlacementFacts.

Import MainWindow Scene RobotFacts.
Local Open Scope string_scope.

(** Settles a comparison of two numerals met in a goal. *)
Ltac settle_Rltb :=
  repeat match goal with
         | |- context [Rltb ?a ?b] =>
             first [ rewrite (Rltb_true a b) by lra
                   | rewrite (Rltb_false a b) by lra ]
         end.

Ltac settle_intersects :=
  unfold intersects, span; simpl; settle_Rltb; simpl; settle_Rltb;
  try reflexivity.

Lemma isObstacle_isRobot (it : Item) : isObstacle it = negb (isRobot it).
Proof. destruct it; reflexivity. Qed.

Lemma itemsIn_In (w : t) (area : QRectF) (it : Item) :
  In it (itemsIn w area) <-> overlapping w area it.
Proof. unfold itemsIn, overlapping. apply filter_In. Qed.

Lemma robotFound_iff (w : t) (area : QRectF) :
  existsb isRobot (itemsIn w area) = true <-> robotOverlaps w area.
Proof.
  rewrite existsb_exists. unfold robotOverlaps.
  split; intros (it & H & Hk); exists it; split; try exact Hk;
    apply itemsIn_In, H.
Qed.

Lemma obstacleFound_iff (w : t) (area : QRectF) :
  existsb isObstacle (itemsIn w area) = true <-> obstacleOverlaps w area.
Proof.
  rewrite existsb_exists. unfold obstacleOverlaps.
  split; intros (it & H & Hk); exists it; split; try exact Hk;
    apply itemsIn_In, H.
Qed.

(** Whenever something was found, [occupant] says what it was. *)
Lemma occupant_names (w : t) (area : QRectF) (word : string) (it : Item) :
  overlapping w area it ->
  names_occupants w area word (occupant word (itemsIn w area)).
Proof.
  intros Hit. unfold names_occupants, occupant.
  pose proof (robotFound_iff w area) as Hr.
  pose proof (obstacleFound_iff w area) as Ho.
  destruct (existsb isRobot (itemsIn w area)) eqn:Er;
    destruct (existsb isObstacle (itemsIn w area)) eqn:Eo; simpl.
  - left. split; [apply Hr; reflexivity |].
    split; [apply Ho; reflexivity | reflexivity].
  - right; left. split; [apply Hr; reflexivity |].
    split; [| reflexivity]. intros H. apply Ho in H. discriminate.
  - right; right. split; [intros H; apply Hr in H; discriminate |].
    split; [apply Ho; reflexivity | reflexivity].
  - exfalso. destruct (isRobot it) eqn:Ek.
    + assert (robotOverlaps w area) as H by (exists it; split; assumption).
      apply Hr in H. discriminate.
    + assert (obstacleOverlaps w area) as H.
      { exists it. split; [assumption |].
        rewrite isObstacle_isRobot, Ek. reflexivity. }
      apply Ho in H. discriminate.
Qed.

Lemma createObstacle_conflict (w : t) (x y width : Z) (it : Item) :
  overlapping w (obstacleArea x y width) it ->
  createObstacle (Some (x, y, width)) w
  = (w, Some ("Cannot place an obstacle here. The space is already occupied by "
              ++ occupant "another obstacle."
                   (itemsIn w (obstacleArea x y width)))).
Proof.
  intros Hit. apply itemsIn_In in Hit. unfold createObstacle.
  fold (obstacleArea x y width).
  destruct (itemsIn w (obstacleArea x y width)); [destruct Hit | reflexivity].
Qed.

Lemma createRobot_conflict (w : t) (d : RobotDialog) (it : Item) :
  overlapping w (robotArea d) it ->
  createRobot (Some d) w
  = (w, Some ("Cannot place a robot here. The space is already occupied by "
              ++ occupant "an obstacle." (itemsIn w (robotArea d)))).
Proof.
  intros Hit. apply itemsIn_In in Hit. unfold createRobot.
  fold (robotArea d).
  destruct (itemsIn w (robotArea d)); [destruct Hit | reflexivity].
Qed.

(** C3.  When the region of the entity to place overlaps the region of an
    entity [it] of the scene, [createObstacle] and [createRobot] leave the
    window as it was and show a message that ends by naming the occupants:
    a robot, an obstacle, or both. *)
Theorem conflicting_placement_rejected (w : t) (it : Item) :
  In it (sceneItems w) ->
  (forall x y width : Z,
     intersects (obstacleArea x y width) (itemRect it) = true ->
     exists msg,
       createObstacle (Some (x, y, width)) w
       = (w, Some ("Cannot place an obstacle here. The space is already occupied by "
                   ++ msg)) /\
       names_occupants w (obstacleArea x y width) "another obstacle." msg) /\
  (forall d : RobotDialog,
     intersects (robotArea d) (itemRect it) = true ->
     exists msg,
       createRobot (Some d) w
       = (w, Some ("Cannot place a robot here. The space is already occupied by "
                   ++ msg)) /\
       names_occupants w (robotArea d) "an obstacle." msg).
Proof.
  intros Hin. split.
  - intros x y width Hov.
    assert (Hit : overlapping w (obstacleArea x y width) it)
      by (split; assumption).
    eexists. split; [apply (createObstacle_conflict _ _ _ _ it Hit) |].
    apply (occupant_names _ _ _ it Hit).
  - intros d Hov.
    assert (Hit : overlapping w (robotArea d) it) by (split; assumption).
    eexists. split; [apply (createRobot_conflict _ _ it Hit) |].
    apply (occupant_names _ _ _ it Hit).
Qed.

Lemma conflicting_placement_rejected_witness :
  (exists msg,
     createObstacle (Some (15, 15, 20)%Z) occupiedWindow
     = (occupiedWindow,
        Some ("Cannot place an obstacle here. The space is already occupied by "
              ++ msg)) /\
     names_occupants occupiedWindow (obstacleArea 15 15 20)
       "another obstacle." msg) /\
  (exists msg,
     createRobot (Some (mkRobotDialog 1 0 5 50 40 40 0)) occupiedWindow
     = (occupiedWindow,
        Some ("Cannot place a robot here. The space is already occupied by "
              ++ msg)) /\
     names_occupants occupiedWindow
       (robotArea (mkRobotDialog 1 0 5 50 40 40 0)) "an obstacle." msg).
Proof.
  destruct (conflicting_placement_rejected occupiedWindow
              (ObstacleItem (Obstacle.new 10 10 20))) as [Ho Hr].
  - simpl. right. left. reflexivity.
  - split.
    + apply Ho. settle_intersects.
    + apply Hr. settle_intersects.
Defined.

(** C4.  Loading a scene file that describes the same obstacle twice adds
    both: the two squares coincide, and nothing on the loading path
    compares the new region with those already in the scene, whereas
    [createObstacle] turns the second one down. *)
Theorem load_adds_overlapping_obstacles :
  let first := Obstacle.new 10 10 20 in
  let second := Obstacle.new 10 10 20 in
  obstacles (loadSceneFromFile (Some twoObstaclesFile) new)
  = [first; second] /\
  intersects (Obstacle.rect second) (Obstacle.rect first) = true /\
  fst (createObstacle (Some (10, 10, 20)%Z) (setObstacles [first] new))
  = setObstacles [first] new.
Proof.
  cbv zeta. split; [vm_compute; reflexivity |].
  split; [settle_intersects |].
  rewrite (createObstacle_conflict _ _ _ _
             (ObstacleItem (Obstacle.new 10 10 20))); [reflexivity |].
  split; [simpl; left; reflexivity | settle_intersects].
Qed.

End PlacementFacts.

(** ** Properties of the simulation tick *)

Module TickFacts.

Import MainWindow Scene Geometry RobotFacts.

Lemma frame_refl (w : t) : frame w w.
Proof. repeat split. Qed.

Lemma frame_trans (w1 w2 w3 : t) : frame w1 w2 -> frame w2 w3 -> frame w1 w3.
Proof.
  intros (A1 & A2 & A3) (B1 & B2 & B3).
  repeat split; etransitivity; eassumption.
Qed.

Lemma foldl_step {A B : Type} (f : A -> B -> A) (a : A) (x : B)
    (l : list B) :
  foldl f a (x :: l) = foldl f (f a x) l.
Proof. reflexivity. Qed.

Lemma filter_step {A : Type} (f : A -> bool) (x : A) (l : list A) :
  List.filter f (x :: l)
  = if f x then x :: List.filter f l else List.filter f l.
Proof. reflexivity. Qed.

Lemma movingAt_pose (w w' : t) (j : nat) :
  pose <$> remoteRobots w' !! j = pose <$> remoteRobots w !! j ->
  movingAt w' j = movingAt w j.
Proof.
  unfold movingAt, pose. intros H.
  destruct (remoteRobots w' !! j), (remoteRobots w !! j);
    simpl in H; try discriminate; [| reflexivity].
  injection H as Hb _. rewrite Hb. reflexivity.
Qed.

(** The steering slots write the rotation intent of the selected robot and
    nothing else. *)
Lemma onSelected_pose (f : RemoteRobot.t -> RemoteRobot.t) (w : t) (j : nat) :
  (forall r, pose (f r) = pose r) ->
  pose <$> remoteRobots (onSelected f w) !! j = pose <$> remoteRobots w !! j.
Proof.
  intros Hf. unfold onSelected.
  destruct (selectedRobot w) as [s |]; [simpl | reflexivity].
  destruct (decide (s = j)) as [-> | Hne].
  - rewrite list_lookup_alter_eq.
    destruct (remoteRobots w !! j); simpl; [rewrite Hf |]; reflexivity.
  - rewrite list_lookup_alter_ne by assumption. reflexivity.
Qed.

Lemma onSelected_frame (f : RemoteRobot.t -> RemoteRobot.t) (w : t) :
  frame w (onSelected f w) /\
  autonomousRobots (onSelected f w) = autonomousRobots w /\
  length (remoteRobots (onSelected f w)) = length (remoteRobots w).
Proof.
  unfold onSelected. destruct (selectedRobot w) eqn:E; simpl.
  - split; [repeat split; simpl; congruence |].
    split; [reflexivity | apply length_alter].
  - split; [apply frame_refl | split; reflexivity].
Qed.

Section Loops.

Variable autonomousDetect : list Item -> AutonomousRobot.t -> bool.
Variable remoteDetect : list Item -> RemoteRobot.t -> bool.

Abbreviation stepA := (stepAutonomous autonomousDetect).
Abbreviation stepR := (stepRemote remoteDetect).
Abbreviation tick := (updateRobots autonomousDetect remoteDetect).

Lemma afterIntent_pose (w : t) (r : RemoteRobot.t) (j : nat) :
  pose <$> remoteRobots (afterIntent w r) !! j
  = pose <$> remoteRobots w !! j.
Proof.
  unfold afterIntent, rotateRobotRight, rotateRobotLeft.
  repeat case_decide; destruct (timerActive w); try reflexivity;
    apply onSelected_pose; reflexivity.
Qed.

Lemma afterIntent_frame (w : t) (r : RemoteRobot.t) :
  frame w (afterIntent w r) /\
  autonomousRobots (afterIntent w r) = autonomousRobots w /\
  length (remoteRobots (afterIntent w r)) = length (remoteRobots w).
Proof.
  unfold afterIntent, rotateRobotRight, rotateRobotLeft.
  repeat case_decide; destruct (timerActive w);
    try apply onSelected_frame;
    (split; [apply frame_refl | split; reflexivity]).
Qed.

(** One iteration of the second loop. *)
Lemma stepRemote_spec (w : t) (calls : list UpdateCall) (i : nat) :
  let st' := stepR (w, calls) i in
  frame w (fst st') /\
  autonomousRobots (fst st') = autonomousRobots w /\
  length (remoteRobots (fst st')) = length (remoteRobots w) /\
  (forall j, j <> i ->
     pose <$> remoteRobots (fst st') !! j = pose <$> remoteRobots w !! j) /\
  (movingAt w i = false ->
     pose <$> remoteRobots (fst st') !! i = pose <$> remoteRobots w !! i /\
     snd st' = calls) /\
  (movingAt w i = true ->
     snd st' = calls ++ [RemoteUpdate i] /\
     exists r r',
       remoteRobots w !! i = Some r /\
       remoteRobots (fst st') !! i = Some r' /\
       position (RemoteRobot.base r')
       = position (Robot.interpolate (RemoteRobot.base r)
                                     (RemoteRobot.orientation r))).
Proof.
  cbv zeta. unfold stepRemote.
  destruct (remoteRobots w !! i) as [r |] eqn:E.
  - fold (afterIntent w r).
    pose proof (afterIntent_pose w r) as Hp.
    destruct (afterIntent_frame w r) as (Hf & Ha & Hl).
    set (w1 := afterIntent w r) in *.
    pose proof (Hp i) as Hi. rewrite E in Hi.
    assert (Hm : movingAt w i = Robot.isMoving (RemoteRobot.base r))
      by (unfold movingAt; rewrite E; reflexivity).
    destruct (remoteRobots w1 !! i) as [robot |] eqn:E1;
      [| discriminate Hi].
    simpl in Hi. injection Hi as Hb Ho.
    rewrite Hm, <- Hb.
    destruct (Robot.isMoving (RemoteRobot.base robot)); simpl.
    + split; [exact Hf |]. split; [exact Ha |].
      split; [rewrite length_insert; exact Hl |].
      split; [intros j Hj; rewrite list_lookup_insert_ne by congruence;
              apply Hp |].
      split; [discriminate |]. intros _. split; [reflexivity |].
      eexists r, _. split; [reflexivity |].
      split; [apply list_lookup_insert_eq; eapply lookup_lt_Some, E1 |].
      rewrite remote_update_base, Hb, Ho. reflexivity.
    + split; [exact Hf |]. split; [exact Ha |]. split; [exact Hl |].
      split; [intros j _; apply Hp |].
      split; [| discriminate]. intros _. split; [| reflexivity].
      rewrite E1. simpl. unfold pose. rewrite Hb, Ho. reflexivity.
  - assert (Hm : movingAt w i = false)
      by (unfold movingAt; rewrite E; reflexivity).
    rewrite Hm. simpl.
    split; [apply frame_refl |]. split; [reflexivity |].
    split; [reflexivity |]. split; [intros j _; reflexivity |].
    split; [intros _; rewrite E; split; reflexivity | discriminate].
Qed.

(** One iteration of the first loop. *)
Lemma stepAutonomous_spec (w : t) (calls : list UpdateCall) (i : nat) :
  let st' := stepA (w, calls) i in
  frame w (fst st') /\
  remoteRobots (fst st') = remoteRobots w /\
  length (autonomousRobots (fst st')) = length (autonomousRobots w) /\
  (i < length (autonomousRobots w) -> snd st' = calls ++ [AutonomousUpdate i]).
Proof.
  cbv zeta. unfold stepAutonomous.
  destruct (autonomousRobots w !! i) as [robot |] eqn:E; simpl.
  - split; [repeat split |]. split; [reflexivity |].
    split; [apply length_insert | reflexivity].
  - split; [apply frame_refl |]. split; [reflexivity |].
    split; [reflexivity |]. intros Hi. apply lookup_ge_None in E. lia.
Qed.

(** The first loop, from index [k] on. *)
Lemma autonomous_loop (n : nat) :
  forall (k : nat) (w : t) (calls : list UpdateCall),
    k + n <= length (autonomousRobots w) ->
    let st' := foldl stepA (w, calls) (seq k n) in
    frame w (fst st') /\
    remoteRobots (fst st') = remoteRobots w /\
    length (autonomousRobots (fst st')) = length (autonomousRobots w) /\
    snd st' = calls ++ (AutonomousUpdate <$> seq k n).
Proof.
  induction n as [| n IH]; intros k w calls Hk; cbv zeta.
  - simpl. split; [apply frame_refl |]. split; [reflexivity |].
    split; [reflexivity |]. rewrite app_nil_r. reflexivity.
  - rewrite <- cons_seq, foldl_step.
    pose proof (stepAutonomous_spec w calls k) as H1. cbv zeta in H1.
    destruct (stepA (w, calls) k) as [w1 c1]. simpl in H1.
    destruct H1 as (F1 & R1 & L1 & C1).
    destruct (IH (S k) w1 c1) as (F2 & R2 & L2 & C2); [lia |].
    split; [eapply frame_trans; eassumption |].
    split; [congruence |]. split; [congruence |].
    rewrite C2, C1 by lia. rewrite fmap_cons, <- app_assoc. reflexivity.
Qed.

(** The second loop, from index [k] on. *)
Lemma remote_loop (n : nat) :
  forall (k : nat) (w : t) (calls : list UpdateCall),
    let st' := foldl stepR (w, calls) (seq k n) in
    frame w (fst st') /\
    length (remoteRobots (fst st')) = length (remoteRobots w) /\
    (forall j, j < k ->
       pose <$> remoteRobots (fst st') !! j = pose <$> remoteRobots w !! j) /\
    (forall j, movingAt w j = false ->
       pose <$> remoteRobots (fst st') !! j = pose <$> remoteRobots w !! j) /\
    snd st' = calls ++ (RemoteUpdate <$> List.filter (movingAt w) (seq k n)) /\
    (forall j r,
       k <= j < k + n -> remoteRobots w !! j = Some r ->
       movingAt w j = true ->
       exists r',
         remoteRobots (fst st') !! j = Some r' /\
         position (RemoteRobot.base r')
         = position (Robot.interpolate (RemoteRobot.base r)
                                       (RemoteRobot.orientation r))).
Proof.
  induction n as [| n IH]; intros k w calls; cbv zeta.
  - simpl. split; [apply frame_refl |]. split; [reflexivity |].
    split; [reflexivity |]. split; [reflexivity |].
    split; [rewrite app_nil_r; reflexivity |]. intros j r Hj. lia.
  - rewrite <- cons_seq, foldl_step.
    pose proof (stepRemote_spec w calls k) as H1. cbv zeta in H1.
    destruct (stepR (w, calls) k) as [w1 c1]. simpl in H1.
    destruct H1 as (F1 & _ & L1 & O1 & I1 & M1).
    destruct (IH (S k) w1 c1) as (F2 & L2 & B2 & I2 & C2 & M2).
    assert (Hkeep : forall j, j <> k \/ movingAt w j = false ->
              pose <$> remoteRobots w1 !! j = pose <$> remoteRobots w !! j).
    { intros j [Hj | Hj]; [apply O1, Hj |].
      destruct (decide (j = k)) as [-> | Hne]; [apply I1, Hj | apply O1, Hne]. }
    split; [eapply frame_trans; eassumption |].
    split; [congruence |].
    split; [intros j Hj; rewrite B2 by lia; apply Hkeep; left; lia |].
    split.
    { intros j Hj. rewrite I2.
      - apply Hkeep. right. exact Hj.
      - rewrite (movingAt_pose w w1 j); [exact Hj |].
        apply Hkeep. right. exact Hj. }
    split.
    { rewrite C2.
      rewrite (filter_ext_in (movingAt w1) (movingAt w) (seq (S k) n)).
      - rewrite filter_step. destruct (movingAt w k) eqn:Ek.
        + destruct (M1 eq_refl) as [-> _].
          rewrite fmap_cons, <- app_assoc. reflexivity.
        + destruct (I1 eq_refl) as [_ ->]. reflexivity.
      - intros j Hj. apply in_seq in Hj. apply movingAt_pose, Hkeep.
        left. lia. }
    intros j r Hj Er Em.
    destruct (decide (j = k)) as [-> | Hne].
    + destruct (M1 Em) as (_ & r0 & r' & E0 & E' & Hpos).
      rewrite Er in E0. injection E0 as <-.
      pose proof (B2 k ltac:(lia)) as Hsame. rewrite E' in Hsame.
      destruct (remoteRobots (fst (foldl stepR (w1, c1) (seq (S k) n))) !! k)
        as [r'' |] eqn:E''; [| discriminate Hsame].
      exists r''. split; [reflexivity |].
      simpl in Hsame. injection Hsame as Hb _. rewrite Hb. exact Hpos.
    + pose proof (Hkeep j (or_introl Hne)) as Hsame. rewrite Er in Hsame.
      destruct (remoteRobots w1 !! j) as [r1 |] eqn:E1;
        [| discriminate Hsame].
      simpl in Hsame. injection Hsame as Hb Ho.
      destruct (M2 j r1) as (r' & E' & Hpos); [lia | exact E1 | |].
      * rewrite (movingAt_pose w w1 j); [exact Em |].
        rewrite E1, Er. simpl. unfold pose. rewrite Hb, Ho. reflexivity.
      * exists r'. split; [exact E' |]. rewrite Hpos, Hb, Ho. reflexivity.
Qed.

Lemma tick_unfold (w : t) :
  tick w
  = let st1 :=
      foldl stepA (w, []) (seq 0 (length (autonomousRobots w))) in
    foldl stepR st1 (seq 0 (length (remoteRobots (fst st1)))).
Proof. reflexivity. Qed.

(** One tick, as a whole. *)
Lemma tick_spec (w : t) :
  frame w (fst (tick w)) /\
  length (remoteRobots (fst (tick w))) = length (remoteRobots w) /\
  (forall j, movingAt w j = false ->
     pose <$> remoteRobots (fst (tick w)) !! j
     = pose <$> remoteRobots w !! j) /\
  (forall j r,
     remoteRobots w !! j = Some r -> movingAt w j = true ->
     exists r',
       remoteRobots (fst (tick w)) !! j = Some r' /\
       position (RemoteRobot.base r')
       = position (Robot.interpolate (RemoteRobot.base r)
                                     (RemoteRobot.orientation r))).
Proof.
  rewrite tick_unfold. cbv zeta.
  destruct (autonomous_loop (length (autonomousRobots w)) 0 w [])
    as (F1 & R1 & _ & _); [lia |].
  destruct (foldl stepA (w, []) (seq 0 (length (autonomousRobots w))))
    as [w1 c1]. simpl in F1, R1. simpl fst.
  destruct (remote_loop (length (remoteRobots w1)) 0 w1 c1)
    as (F2 & L2 & _ & I2 & _ & M2).
  assert (Hmov : forall j, movingAt w1 j = movingAt w j)
    by (intros j; unfold movingAt; rewrite R1; reflexivity).
  split; [eapply frame_trans; eassumption |].
  split; [congruence |].
  split; [intros j Hj; rewrite I2, R1; [reflexivity | congruence] |].
  intros j r Er Em. apply M2.
  - apply lookup_lt_Some in Er. rewrite R1. lia.
  - rewrite R1. exact Er.
  - rewrite Hmov. exact Em.
Qed.

(** An idle remote robot keeps its base members and heading over any
    number of ticks, and the ticks leave the selection and the timer as
    they were. *)
Lemma ticks_idle (n : nat) :
  forall (w : t) (i : nat) (r : RemoteRobot.t),
    remoteRobots w !! i = Some r ->
    Robot.isMoving (RemoteRobot.base r) = false ->
    frame w (ticks autonomousDetect remoteDetect n w) /\
    pose <$> remoteRobots (ticks autonomousDetect remoteDetect n w) !! i
    = Some (pose r).
Proof.
  induction n as [| n IH]; intros w i r Er Hidle; simpl.
  - split; [apply frame_refl | rewrite Er; reflexivity].
  - destruct (tick_spec w) as (F & _ & I & _).
    assert (Hm : movingAt w i = false)
      by (unfold movingAt; rewrite Er; exact Hidle).
    pose proof (I i Hm) as Hp. rewrite Er in Hp.
    destruct (remoteRobots (fst (tick w)) !! i) as [r1 |] eqn:E1;
      [| discriminate Hp].
    simpl in Hp. injection Hp as Hb Ho.
    destruct (IH (fst (tick w)) i r1 E1) as (F' & P');
      [rewrite Hb; exact Hidle |].
    split; [eapply frame_trans; eassumption |].
    rewrite P'. unfold pose. rewrite Hb, Ho. reflexivity.
Qed.

Lemma interpolate_heading_0 (b : Robot.t) :
  position (Robot.interpolate (Robot.setMoving true b) 0)
  = mkPoint (Robot.positionX b + 0.1 * IZR (Robot.speed b))%R
            (Robot.positionY b).
Proof.
  unfold position, Robot.interpolate, Robot.targetX, Robot.targetY,
    Robot.radAngle. simpl.
  replace (0 * PI / 180)%R with 0%R by lra.
  rewrite cos_0, sin_0. f_equal; lra.
Qed.

(** C5.  A remote robot whose moving flag is false has the same position
    after any number of ticks; when it has heading 0 and is the selected
    robot of a running simulation, [moveRobot] followed by one tick moves
    it by one tenth of its speed along x and leaves y as it was. *)
Theorem idle_remote_stays_then_steps
    (w : t) (i : nat) (r : RemoteRobot.t) (n : nat) :
  remoteRobots w !! i = Some r ->
  Robot.isMoving (RemoteRobot.base r) = false ->
  let wn := ticks autonomousDetect remoteDetect n w in
  (exists rn,
     remoteRobots wn !! i = Some rn /\
     position (RemoteRobot.base rn) = position (RemoteRobot.base r)) /\
  (RemoteRobot.orientation r = 0%Z ->
   selectedRobot w = Some i ->
   timerActive w = true ->
   exists r',
     remoteRobots (fst (tick (moveRobot wn))) !! i = Some r' /\
     Robot.positionX (RemoteRobot.base r')
     = (Robot.positionX (RemoteRobot.base r)
        + 0.1 * IZR (Robot.speed (RemoteRobot.base r)))%R /\
     Robot.positionY (RemoteRobot.base r')
     = Robot.positionY (RemoteRobot.base r)).
Proof.
  intros Er Hidle wn.
  destruct (ticks_idle n w i r Er Hidle) as ((_ & Fs & Ft) & Hp).
  fold wn in Fs, Ft, Hp.
  destruct (remoteRobots wn !! i) as [rn |] eqn:En; [| discriminate Hp].
  simpl in Hp. injection Hp as Hb Ho.
  split.
  - exists rn. split; [reflexivity | rewrite Hb; reflexivity].
  - intros Hzero Hsel Hrun.
    assert (Em : remoteRobots (moveRobot wn) !! i
                 = Some (RemoteRobot.moveForward rn)).
    { unfold moveRobot, onSelected. rewrite Ft, Hrun, Fs, Hsel. simpl.
      rewrite list_lookup_alter_eq, En. reflexivity. }
    destruct (tick_spec (moveRobot wn)) as (_ & _ & _ & M).
    destruct (M i _ Em) as (r' & E' & Hpos).
    { unfold movingAt. rewrite Em. reflexivity. }
    exists r'. split; [exact E' |].
    simpl in Hpos. rewrite Ho, Hzero, Hb, interpolate_heading_0 in Hpos.
    injection Hpos as Hx Hy. split; assumption.
Qed.

(** C6, as the code has it.  One tick calls [update] once on every
    autonomous robot and once on every remote robot whose moving flag is
    set when the tick starts, skipping the remote robots that stand still;
    the autonomous robots come first, then the remote ones, each list in
    its order. *)
Theorem tick_updates_moving_robots_once (w : t) :
  snd (tick w) = everyMovingRobotOnce w.
Proof.
  rewrite tick_unfold. cbv zeta.
  destruct (autonomous_loop (length (autonomousRobots w)) 0 w [])
    as (_ & R1 & _ & C1); [lia |].
  destruct (foldl stepA (w, []) (seq 0 (length (autonomousRobots w))))
    as [w1 c1]. simpl in R1, C1. simpl fst.
  destruct (remote_loop (length (remoteRobots w1)) 0 w1 c1)
    as (_ & _ & _ & _ & C2 & _).
  rewrite C2, C1. unfold everyMovingRobotOnce. rewrite R1.
  f_equal. f_equal. apply filter_ext_in.
  intros j _. unfold movingAt. rewrite R1. reflexivity.
Qed.

End Loops.

Lemma idle_remote_stays_then_steps_witness :
  let r := RemoteRobot.new 100 100 5 50 in
  let detectA := fun (_ : list Item) (_ : AutonomousRobot.t) => false in
  let detectR := fun (_ : list Item) (_ : RemoteRobot.t) => false in
  let w := selectRobot 0 idleWindow in
  let wn := ticks detectA detectR 3 w in
  (exists rn,
     remoteRobots wn !! 0 = Some rn /\
     position (RemoteRobot.base rn) = position (RemoteRobot.base r)) /\
  (exists r',
     remoteRobots (fst (updateRobots detectA detectR (moveRobot wn))) !! 0
     = Some r' /\
     Robot.positionX (RemoteRobot.base r') = (100 + 0.1 * IZR 5)%R /\
     Robot.positionY (RemoteRobot.base r') = 100%R).
Proof.
  intros r detectA detectR w wn.
  destruct (idle_remote_stays_then_steps detectA detectR w 0 r 3
              eq_refl eq_refl) as [Hstay Hstep].
  split; [exact Hstay |].
  apply Hstep; reflexivity.
Defined.

(** C6 as stated fails: a tick over a scene whose only robot is a remote
    robot standing still calls no [update] at all. *)
Lemma idle_robot_not_updated :
  snd (updateRobots (fun _ _ => false) (fun _ _ => false) idleWindow)
  <> everyRobotOnce idleWindow.
Proof.
  assert (H : snd (updateRobots (fun _ _ => false) (fun _ _ => false)
                     idleWindow) = []) by reflexivity.
  rewrite H. discriminate.
Qed.

(** C9.  Of two remote robots, let the first be selected and told to
    rotate right, so that it holds the intent, and let the second be
    selected afterwards.  The next tick, finding the intent on the first
    robot, sends [rotateRight()] to the selected one: the holder keeps its
    orientation and its intent, and the other robot receives the command.
    This is so whatever the detection answers and however many ticks pass
    before the second robot is selected. *)
Theorem intent_goes_to_selected_robot
    (detectA : list Item -> AutonomousRobot.t -> bool)
    (detectR : list Item -> RemoteRobot.t -> bool) (n : nat) :
  let holder := RemoteRobot.rotateRight (RemoteRobot.new 100 100 5 50) in
  let other := RemoteRobot.new 300 100 5 50 in
  let w :=
    selectRobot 1
      (ticks detectA detectR n (rotateRobotRight (selectRobot 0 twoRemotes))) in
  remoteRobots w = [holder; other] /\
  RemoteRobot.rotationDirection holder = RotateRight /\
  remoteRobots (fst (updateRobots detectA detectR w))
  = [holder; RemoteRobot.rotateRight other].
Proof.
  cbv zeta.
  assert (Hn : ticks detectA detectR n
                 (rotateRobotRight (selectRobot 0 twoRemotes))
               = rotateRobotRight (selectRobot 0 twoRemotes)).
  { induction n as [| n IH]; [reflexivity |]. simpl. exact IH. }
  rewrite Hn. split; [reflexivity |]. split; reflexivity.
Qed.

End TickFacts.

(** ** Properties of the scene loader *)

Module LoadFacts.

Import MainWindow Scene.
Local Open Scope string_scope.

Lemma value_insert_ne (params : gmap string string)
    (key key' v : string) :
  key <> key' -> value (<[key:=v]> params) key' = value params key'.
Proof. intros H. unfold value. rewrite lookup_insert_ne by exact H. reflexivity. Qed.

Lemma addAttribute_other (params : gmap string string)
    (line key : string) :
  assigns key line = false ->
  addAttribute params line !! key = params !! key.
Proof.
  unfold assigns, addAttribute.
  destruct (split "=" line) as [| k [| v [| x rest]]]; try reflexivity.
  intros H. apply String.eqb_neq in H.
  apply lookup_insert_ne. exact H.
Qed.

Lemma attributes_omitted (keep : string -> bool) (key : string)
    (lines : list string) :
  forall params : gmap string string,
    params !! key = None ->
    forallb (fun line => negb (assigns key line)) lines = true ->
    foldl addAttribute params (List.filter keep lines) !! key = None.
Proof.
  induction lines as [| line lines IH]; intros params Hp Hall; simpl.
  - exact Hp.
  - simpl in Hall. apply andb_true_iff in Hall as [Hline Hrest].
    apply negb_true_iff in Hline.
    destruct (keep line); simpl.
    + apply IH; [| exact Hrest].
      rewrite addAttribute_other by exact Hline. exact Hp.
    + apply IH; assumption.
Qed.

(** A key that no line of the block assigns is absent from the parsed
    attributes, and reads as the empty string. *)
Lemma parseAttributes_omits (attributes key : string) :
  omits attributes key = true -> parseAttributes attributes !! key = None.
Proof.
  intros H. unfold parseAttributes.
  apply attributes_omitted; [apply lookup_empty | exact H].
Qed.

Lemma value_omitted (attributes key : string) :
  omits attributes key = true ->
  value (parseAttributes attributes) key = "".
Proof.
  intros H. unfold value. rewrite parseAttributes_omits by exact H.
  reflexivity.
Qed.

Lemma toInt_empty : toInt "" = 0%Z.
Proof. reflexivity. Qed.

Lemma toDouble_empty : toDouble "" = 0%R.
Proof. reflexivity. Qed.

Lemma int_omitted (attributes key : string) :
  omits attributes key = true ->
  toInt (value (parseAttributes attributes) key) = 0%Z.
Proof. intros H. rewrite value_omitted by exact H. apply toInt_empty. Qed.

Lemma double_omitted (attributes key : string) :
  omits attributes key = true ->
  toDouble (value (parseAttributes attributes) key) = 0%R.
Proof. intros H. rewrite value_omitted by exact H. apply toDouble_empty. Qed.

(** A key that [processObject] does not read changes nothing. *)
Lemma processParams_unknown_key (type key v : string)
    (params : gmap string string) (w : t) :
  ~ In key recognizedKeys ->
  processParams type (<[key:=v]> params) w = processParams type params w.
Proof.
  intros Hkey. unfold processParams.
  rewrite !value_insert_ne; [reflexivity | ..];
    intros ->; apply Hkey; simpl; tauto.
Qed.

(** Settles a conjunction of "key omitted, hence member zero" goals. *)
Ltac omitted_fields :=
  repeat match goal with |- _ /\ _ => split end;
  let H := fresh "Homit" in
  intros H;
  rewrite ?(int_omitted _ _ H), ?(double_omitted _ _ H);
  try split; reflexivity.

(** C8, as the code has it.  A key that a block leaves out is read as
    zero and the entity is built from that zero: its position members,
    speed, detection radius, avoidance angle or side length are 0, and an
    autonomous robot whose orientation code is left out (code 0) gets the
    heading the constructor gives code 0, which is 270 degrees.  A key
    that the loader does not read has no effect. *)
Theorem omitted_keys_read_as_zero (attributes : string) (w : t) :
  (exists r,
     processObject "AutonomousRobot" attributes w
     = setAutonomousRobots (autonomousRobots w ++ [r]) w /\
     (omits attributes "positionX" = true ->
      Robot.positionX (AutonomousRobot.base r) = 0%R) /\
     (omits attributes "positionY" = true ->
      Robot.positionY (AutonomousRobot.base r) = 0%R) /\
     (omits attributes "speed" = true ->
      Robot.speed (AutonomousRobot.base r) = 0%Z) /\
     (omits attributes "detectionRadius" = true ->
      AutonomousRobot.detectionRadius r = 0%R) /\
     (omits attributes "avoidanceAngle" = true ->
      AutonomousRobot.avoidanceAngle r = 0%R) /\
     (omits attributes "orientation" = true ->
      AutonomousRobot.orientation r = 270%Z)) /\
  (exists r,
     processObject "RemoteRobot" attributes w
     = setRemoteRobots (remoteRobots w ++ [r]) w /\
     (omits attributes "positionX" = true ->
      Robot.positionX (RemoteRobot.base r) = 0%R) /\
     (omits attributes "positionY" = true ->
      Robot.positionY (RemoteRobot.base r) = 0%R) /\
     (omits attributes "speed" = true ->
      Robot.speed (RemoteRobot.base r) = 0%Z) /\
     (omits attributes "detectionRadius" = true ->
      RemoteRobot.detectionRadius r = 0%R)) /\
  (exists o,
     processObject "Obstacle" attributes w
     = setObstacles (obstacles w ++ [o]) w /\
     (omits attributes "positionX" = true -> rx (Obstacle.rect o) = 0%R) /\
     (omits attributes "positionY" = true -> ry (Obstacle.rect o) = 0%R) /\
     (omits attributes "width" = true ->
      rw (Obstacle.rect o) = 0%R /\ rh (Obstacle.rect o) = 0%R)) /\
  (forall (type key v : string) (params : gmap string string),
     ~ In key recognizedKeys ->
     processParams type (<[key:=v]> params) w = processParams type params w).
Proof.
  split; [| split; [| split]].
  - eexists. split; [reflexivity |]. simpl. omitted_fields.
  - eexists. split; [reflexivity |]. simpl. omitted_fields.
  - eexists. split; [reflexivity |]. simpl. omitted_fields.
  - intros type key v params. apply processParams_unknown_key.
Qed.

Lemma omitted_keys_read_as_zero_witness :
  (exists r,
     processObject "AutonomousRobot" "speed = 3" new
     = setAutonomousRobots [r] new /\
     Robot.positionX (AutonomousRobot.base r) = 0%R /\
     AutonomousRobot.avoidanceAngle r = 0%R /\
     AutonomousRobot.orientation r = 270%Z) /\
  processParams "Obstacle" (<["colour":="red"]> ∅) new
  = processParams "Obstacle" ∅ new.
Proof.
  destruct (omitted_keys_read_as_zero "speed = 3" new)
    as ((r & E & Hx & _ & _ & _ & Ha & Ho) & _ & _ & Hu).
  split.
  - exists r. split; [exact E |].
    split; [apply Hx; reflexivity |].
    split; [apply Ha; reflexivity | apply Ho; reflexivity].
  - apply Hu. simpl. intros H.
    repeat (destruct H as [H | H]; [discriminate H |]). exact H.
Defined.

(** C8 as stated fails: an AutonomousRobot block with no key at all gives
    a robot whose orientation is not 0. *)
Lemma omitted_orientation_not_zero :
  exists r,
    autonomousRobots (processObject "AutonomousRobot" "" new) = [r] /\
    omits "" "orientation" = true /\
    AutonomousRobot.orientation r <> 0%Z.
Proof.
  eexists. split; [reflexivity |]. split; [reflexivity |].
  simpl. rewrite int_omitted by reflexivity. discriminate.
Qed.



End LoadFacts.

(** ** Further properties of the robots *)

Module MotionFacts.

Import Geometry Behaviour RobotFacts.
Local Open Scope R_scope.

Lemma rotatePoint_zero (p : QPointF) : Robot.rotatePoint p 0 = p.
Proof.
  destruct p as [x y]. unfold Robot.rotatePoint. simpl.
  rewrite cos_0, sin_0. f_equal; ring.
Qed.

Lemma rotatePoint_norm2 (p : QPointF) (a : R) :
  norm2 (Robot.rotatePoint p a) = norm2 p.
Proof.
  destruct p as [x y]. unfold Robot.rotatePoint, norm2. simpl.
  pose proof (sin2_cos2 a) as H. unfold Rsqr in H.
  transitivity ((x * x + y * y) * (sin a * sin a + cos a * cos a)).
  - ring.
  - rewrite H. ring.
Qed.

(** [rotatePoint] is a rotation about the origin: angle 0 changes nothing,
    two turns in a row are one turn by the sum of the angles, and the
    distance from the origin is kept. *)
Theorem rotatePoint_is_rotation (p : QPointF) (a b : R) :
  Robot.rotatePoint p 0 = p /\
  Robot.rotatePoint (Robot.rotatePoint p a) b = Robot.rotatePoint p (a + b) /\
  norm2 (Robot.rotatePoint p a) = norm2 p.
Proof.
  split; [apply rotatePoint_zero |]. split; [| apply rotatePoint_norm2].
  destruct p as [x y]. unfold Robot.rotatePoint. simpl.
  rewrite cos_plus, sin_plus. f_equal; ring.
Qed.

Lemma cos_turns (x : R) (k : Z) : cos (x + 2 * IZR k * PI) = cos x.
Proof.
  destruct (Z_le_gt_dec 0 k) as [Hk | Hk].
  - rewrite <- (Z2Nat.id k) by exact Hk. rewrite <- INR_IZR_INZ.
    apply cos_period.
  - rewrite <- (cos_period (x + 2 * IZR k * PI) (Z.to_nat (- k))).
    f_equal. rewrite INR_IZR_INZ, Z2Nat.id by lia. rewrite opp_IZR. ring.
Qed.

Lemma sin_turns (x : R) (k : Z) : sin (x + 2 * IZR k * PI) = sin x.
Proof.
  destruct (Z_le_gt_dec 0 k) as [Hk | Hk].
  - rewrite <- (Z2Nat.id k) by exact Hk. rewrite <- INR_IZR_INZ.
    apply sin_period.
  - rewrite <- (sin_period (x + 2 * IZR k * PI) (Z.to_nat (- k))).
    f_equal. rewrite INR_IZR_INZ, Z2Nat.id by lia. rewrite opp_IZR. ring.
Qed.

Lemma radAngle_turns (o k : Z) :
  Robot.radAngle (o + 360 * k) = Robot.radAngle o + 2 * IZR k * PI.
Proof. unfold Robot.radAngle. rewrite plus_IZR, mult_IZR. field. Qed.

Lemma interpolate_turns (b : Robot.t) (o k : Z) :
  Robot.interpolate b (o + 360 * k) = Robot.interpolate b o.
Proof.
  unfold Robot.interpolate, Robot.targetX, Robot.targetY.
  rewrite radAngle_turns, cos_turns, sin_turns. reflexivity.
Qed.

(** Only the orientation modulo 360 matters for the motion: a robot whose
    orientation is off by whole turns, as it is after an avoidance turn
    past 360, is moved by an update exactly as the robot with the reduced
    orientation. *)
Theorem whole_turns_do_not_change_motion
    (detect detect' : AutonomousRobot.t -> bool) (r : AutonomousRobot.t)
    (k : Z) :
  position
    (AutonomousRobot.base
       (AutonomousRobot.update detect
          (AutonomousRobot.setOrientation
             (AutonomousRobot.orientation r + 360 * k) r)))
  = position (AutonomousRobot.base (AutonomousRobot.update detect' r)).
Proof.
  rewrite !autonomous_update_base. simpl.
  rewrite interpolate_turns. reflexivity.
Qed.

Lemma normalize_turn (o : Z) :
  exists k : Z, AutonomousRobot.normalize o = (o + 360 * k)%Z.
Proof.
  unfold AutonomousRobot.normalize.
  destruct (Z.ltb_spec o 0);
    [destruct (Z.leb_spec 360 (o + 360)) | destruct (Z.leb_spec 360 o)];
    [exists 0%Z | exists 1%Z | exists (-1)%Z | exists 0%Z]; lia.
Qed.

Lemma normalize_mod (o : Z) :
  (-360 <= o < 720)%Z -> AutonomousRobot.normalize o = (o mod 360)%Z.
Proof.
  intros Ho. unfold AutonomousRobot.normalize.
  destruct (Z.ltb_spec o 0);
    [destruct (Z.leb_spec 360 (o + 360)) | destruct (Z.leb_spec 360 o)].
  - lia.
  - apply (Z.mod_unique_pos o 360 (-1)); lia.
  - apply (Z.mod_unique_pos o 360 1); lia.
  - apply (Z.mod_unique_pos o 360 0); lia.
Qed.

Lemma undisturbed_step (r : AutonomousRobot.t) :
  let r1 := AutonomousRobot.update (fun _ => false) r in
  AutonomousRobot.orientation r1
  = AutonomousRobot.normalize (AutonomousRobot.orientation r) /\
  AutonomousRobot.base r1
  = Robot.setPos
      (Robot.positionX (Robot.interpolate (AutonomousRobot.base r)
                                          (AutonomousRobot.orientation r)))
      (Robot.positionY (Robot.interpolate (AutonomousRobot.base r)
                                          (AutonomousRobot.orientation r)))
      (Robot.interpolate (AutonomousRobot.base r)
                         (AutonomousRobot.orientation r)) /\
  AutonomousRobot.detectionRadius r1 = AutonomousRobot.detectionRadius r /\
  AutonomousRobot.avoidanceAngle r1 = AutonomousRobot.avoidanceAngle r.
Proof. repeat split. Qed.

(** While no obstacle is detected an autonomous robot runs straight: after
    [n] updates it has moved [n] times one tenth of its speed along its
    heading, with the speed and the heading (modulo whole turns) it started
    with; an orientation that starts in [0, 360) stays exactly as it is. *)
Theorem undisturbed_run (n : nat) :
  forall r : AutonomousRobot.t,
    let o := AutonomousRobot.orientation r in
    let s := IZR (Robot.speed (AutonomousRobot.base r)) in
    let r' := undisturbed n r in
    Robot.positionX (AutonomousRobot.base r')
    = Robot.positionX (AutonomousRobot.base r)
      + INR n * (0.1 * s * cos (degrees (IZR o))) /\
    Robot.positionY (AutonomousRobot.base r')
    = Robot.positionY (AutonomousRobot.base r)
      + INR n * (0.1 * s * sin (degrees (IZR o))) /\
    Robot.speed (AutonomousRobot.base r')
    = Robot.speed (AutonomousRobot.base r) /\
    (exists k : Z, AutonomousRobot.orientation r' = (o + 360 * k)%Z) /\
    ((0 <= o < 360)%Z -> AutonomousRobot.orientation r' = o).
Proof.
  induction n as [| n IH]; intros r; cbv zeta.
  - simpl undisturbed. simpl INR.
    split; [lra |]. split; [lra |]. split; [reflexivity |].
    split; [exists 0%Z; lia | reflexivity].
  - change (undisturbed (S n) r)
      with (undisturbed n (AutonomousRobot.update (fun _ => false) r)).
    destruct (undisturbed_step r) as (Ho & Hb & _ & _).
    specialize (IH (AutonomousRobot.update (fun _ => false) r)).
    cbv zeta in IH. destruct IH as (Hx & Hy & Hs & (k & Hk) & Hkeep).
    rewrite Ho, Hb in Hx, Hy. rewrite Hb in Hs. rewrite Ho in Hk, Hkeep.
    destruct (normalize_turn (AutonomousRobot.orientation r)) as (k1 & Hk1).
    assert (Hc : cos (Robot.radAngle
                        (AutonomousRobot.normalize
                           (AutonomousRobot.orientation r)))
                 = cos (Robot.radAngle (AutonomousRobot.orientation r)))
      by (rewrite Hk1, radAngle_turns; apply cos_turns).
    assert (Hsn : sin (Robot.radAngle
                         (AutonomousRobot.normalize
                            (AutonomousRobot.orientation r)))
                  = sin (Robot.radAngle (AutonomousRobot.orientation r)))
      by (rewrite Hk1, radAngle_turns; apply sin_turns).
    change (degrees (IZR (AutonomousRobot.normalize
                            (AutonomousRobot.orientation r))))
      with (Robot.radAngle (AutonomousRobot.normalize
                              (AutonomousRobot.orientation r))) in Hx, Hy.
    rewrite Hc in Hx. rewrite Hsn in Hy.
    change (degrees (IZR (AutonomousRobot.orientation r)))
      with (Robot.radAngle (AutonomousRobot.orientation r)).
    rewrite S_INR.
    split; [rewrite Hx; simpl; unfold Robot.targetX; lra |].
    split; [rewrite Hy; simpl; unfold Robot.targetY; lra |].
    split; [exact Hs |].
    split; [exists (k1 + k)%Z; rewrite Hk, Hk1; lia |].
    intros Hrange.
    assert (Hn : AutonomousRobot.normalize (AutonomousRobot.orientation r)
                 = AutonomousRobot.orientation r).
    { rewrite normalize_mod by lia. apply Z.mod_small. exact Hrange. }
    rewrite Hkeep; rewrite Hn; [reflexivity | exact Hrange].
Qed.

Lemma undisturbed_run_witness :
  AutonomousRobot.orientation
    (undisturbed 5 (AutonomousRobot.new 100 100 2 50 15 10)) = 90%Z.
Proof.
  apply (undisturbed_run 5 (AutonomousRobot.new 100 100 2 50 15 10)).
  simpl. lia.
Defined.

(** An update in which nothing is detected brings an orientation that is
    at most one turn off, on either side, back into [0, 360): it leaves the
    orientation modulo 360. *)
Theorem update_reduces_orientation (r : AutonomousRobot.t) :
  (-360 <= AutonomousRobot.orientation r < 720)%Z ->
  AutonomousRobot.orientation (AutonomousRobot.update (fun _ => false) r)
  = (AutonomousRobot.orientation r mod 360)%Z.
Proof.
  intros H.
  change (AutonomousRobot.orientation
            (AutonomousRobot.update (fun _ => false) r))
    with (AutonomousRobot.normalize (AutonomousRobot.orientation r)).
  generalize dependent (AutonomousRobot.orientation r). intros o H.
  unfold AutonomousRobot.normalize.
  destruct (Z.ltb_spec o 0);
    [destruct (Z.leb_spec 360 (o + 360)) | destruct (Z.leb_spec 360 o)].
  - lia.
  - apply (Z.mod_unique_pos o 360 (-1)); lia.
  - apply (Z.mod_unique_pos o 360 1); lia.
  - apply (Z.mod_unique_pos o 360 0); lia.
Qed.

Lemma update_reduces_orientation_witness :
  AutonomousRobot.orientation
    (AutonomousRobot.update (fun _ => false)
       (AutonomousRobot.setOrientation 370
          (AutonomousRobot.new 100 100 0 50 90 10)))
  = (370 mod 360)%Z.
Proof. apply update_reduces_orientation. simpl. lia. Defined.

(** An avoidance turn by a whole number of degrees, of at most a full turn,
    leaves the sum of orientation and angle, which may lie outside
    [0, 360); the next update in which nothing is detected reduces it
    modulo 360. *)
Theorem avoidance_turn_reduced_next_update (r : AutonomousRobot.t) (a : Z) :
  (0 <= AutonomousRobot.orientation r < 360)%Z ->
  AutonomousRobot.avoidanceAngle r = IZR a ->
  (-360 <= a <= 360)%Z ->
  let r1 := AutonomousRobot.update (fun _ => true) r in
  let r2 := AutonomousRobot.update (fun _ => false) r1 in
  AutonomousRobot.orientation r1 = (AutonomousRobot.orientation r + a)%Z /\
  AutonomousRobot.orientation r2
  = ((AutonomousRobot.orientation r + a) mod 360)%Z.
Proof.
  intros Ho Ha Hrange. cbv zeta.
  assert (H1 : AutonomousRobot.orientation
                 (AutonomousRobot.update (fun _ => true) r)
               = (AutonomousRobot.orientation r + a)%Z).
  { simpl. rewrite Ha, <- plus_IZR, double_to_int_IZR.
    rewrite normalize_mod by lia. rewrite Z.mod_small by exact Ho.
    reflexivity. }
  split; [exact H1 |].
  change (AutonomousRobot.orientation
            (AutonomousRobot.update (fun _ => false)
               (AutonomousRobot.update (fun _ => true) r)))
    with (AutonomousRobot.normalize
            (AutonomousRobot.orientation
               (AutonomousRobot.update (fun _ => true) r))).
  rewrite H1. apply normalize_mod. lia.
Qed.

Lemma avoidance_turn_reduced_next_update_witness :
  let r := AutonomousRobot.new 100 100 0 50 (IZR 100) 10 in
  AutonomousRobot.orientation (AutonomousRobot.update (fun _ => true) r)
  = (270 + 100)%Z /\
  AutonomousRobot.orientation
    (AutonomousRobot.update (fun _ => false)
       (AutonomousRobot.update (fun _ => true) r))
  = ((270 + 100) mod 360)%Z.
Proof.
  intros r.
  apply (avoidance_turn_reduced_next_update r 100);
    [simpl; lia | reflexivity | lia].
Defined.

End MotionFacts.

(** ** What the updates keep, and the shape of the field of vision *)

Module ShapeFacts.

Import Geometry Behaviour RobotFacts MotionFacts.
Local Open Scope R_scope.

(** Both constructors and both updates leave the item position equal to
    the position members, so the scene sees the robot where the simulation
    has it.  An update of an autonomous robot never writes its speed,
    colour, moving flag, detection radius or avoidance angle; an update of
    a remote robot never writes its orientation, rotation intent,
    detection radius, speed or colour, and never sets the moving flag. *)
Theorem updates_keep_robot_consistent
    (detectA : AutonomousRobot.t -> bool) (a : AutonomousRobot.t)
    (detectR : RemoteRobot.t -> bool) (m : RemoteRobot.t)
    (x y d v : R) (code s : Z) :
  let a' := AutonomousRobot.update detectA a in
  let m' := RemoteRobot.update detectR m in
  synced (AutonomousRobot.base (AutonomousRobot.new x y code d v s)) /\
  synced (RemoteRobot.base (RemoteRobot.new x y s d)) /\
  (synced (AutonomousRobot.base a') /\
   Robot.speed (AutonomousRobot.base a')
   = Robot.speed (AutonomousRobot.base a) /\
   Robot.color (AutonomousRobot.base a')
   = Robot.color (AutonomousRobot.base a) /\
   Robot.isMoving (AutonomousRobot.base a')
   = Robot.isMoving (AutonomousRobot.base a) /\
   AutonomousRobot.detectionRadius a' = AutonomousRobot.detectionRadius a /\
   AutonomousRobot.avoidanceAngle a' = AutonomousRobot.avoidanceAngle a) /\
  (synced (RemoteRobot.base m') /\
   RemoteRobot.orientation m' = RemoteRobot.orientation m /\
   RemoteRobot.rotationDirection m' = RemoteRobot.rotationDirection m /\
   RemoteRobot.detectionRadius m' = RemoteRobot.detectionRadius m /\
   Robot.speed (RemoteRobot.base m') = Robot.speed (RemoteRobot.base m) /\
   Robot.color (RemoteRobot.base m') = Robot.color (RemoteRobot.base m) /\
   implb (Robot.isMoving (RemoteRobot.base m'))
         (Robot.isMoving (RemoteRobot.base m)) = true).
Proof.
  cbv zeta. split; [reflexivity |]. split; [reflexivity |]. split.
  - unfold AutonomousRobot.update. destruct (detectA _); repeat split.
  - unfold RemoteRobot.update. destruct (detectR _); simpl.
    + repeat split.
    + repeat split. destruct (Robot.isMoving (RemoteRobot.base m));
        reflexivity.
Qed.

Lemma tan_PI6_pos : 0 < tan (PI / 6).
Proof. apply tan_gt_0; pose proof PI_RGT_0; lra. Qed.

(** The orientation only turns the trapezoid: the corners drawn at
    orientation [o] are the corners drawn at orientation 0, rotated by [o]
    degrees, hence at the same distances from the robot's centre.  For a
    detection radius that is not negative, the near edge is at most a
    third of the robot's radius wide on each side and never wider than the
    far edge. *)
Theorem viewField_turns_with_robot (o : Z) (d : R) :
  Robot.viewField o d
  = map (fun p => Robot.rotatePoint p (degrees (IZR o)))
        (Robot.viewField 0 d) /\
  map norm2 (Robot.viewField o d) = map norm2 (Robot.viewField 0 d) /\
  (0 <= d ->
   0 <= Robot.halfBaseWidth d <= Robot.robotRadius / 3 /\
   Robot.halfBaseWidth d <= Robot.halfTopWidth d).
Proof.
  assert (H0 : forall p, Robot.rotatePoint p (0 * PI / 180) = p).
  { intros p. replace (0 * PI / 180) with 0 by lra.
    apply rotatePoint_zero. }
  split; [| split].
  - unfold Robot.viewField, degrees. simpl map. rewrite !H0. reflexivity.
  - unfold Robot.viewField. simpl map.
    rewrite !rotatePoint_norm2. reflexivity.
  - intros Hd. pose proof tan_PI6_pos as Ht.
    assert (Htop : 0 <= Robot.halfTopWidth d)
      by (unfold Robot.halfTopWidth; apply Rmult_le_pos; lra).
    rewrite halfBaseWidth_min. unfold Rmin, Robot.robotRadius.
    destruct (Rle_dec _ _) as [H | H]; unfold Robot.robotRadius in *; lra.
Qed.

Lemma viewField_turns_with_robot_witness :
  0 <= Robot.halfBaseWidth 50 <= Robot.robotRadius / 3 /\
  Robot.halfBaseWidth 50 <= Robot.halfTopWidth 50.
Proof. apply (viewField_turns_with_robot 0 50). lra. Defined.

End ShapeFacts.

(** ** Further properties of placement and of clearing *)

Module SceneFacts.

Import MainWindow Scene Geometry Behaviour RobotFacts PlacementFacts.
Local Open Scope string_scope.

(** The area tested for a new robot at [(x, y)] meets the region of a robot
    exactly when the two centres are less than 40 apart on both axes. *)
Lemma robot_areas_intersect (x y : R) (b : Robot.t) :
  intersects (mkRect (x - 20) (y - 20) 40 40)%R (Robot.sceneBoundingRect b)
  = true <->
  (Rabs (x - px (Robot.pos b)) < 40 /\ Rabs (y - py (Robot.pos b)) < 40)%R.
Proof.
  unfold intersects, span, Robot.sceneBoundingRect, Robot.boundingRect.
  simpl. settle_Rltb. simpl. settle_Rltb. simpl.
  unfold Rltb.
  split.
  - intros H.
    repeat match type of H with
           | context [Rlt_dec ?a ?c] =>
               destruct (Rlt_dec a c); simpl in H; try discriminate H
           end.
    split; apply Rabs_def1; lra.
  - intros [Hx Hy]. apply Rabs_def2 in Hx. apply Rabs_def2 in Hy.
    repeat match goal with
           | |- context [Rlt_dec ?a ?c] => destruct (Rlt_dec a c); try lra
           end.
    all: reflexivity.
Qed.

Lemma createRobot_accepted (d : RobotDialog) (w w' : t) :
  createRobot (Some d) w = (w', None) ->
  itemsIn w (robotArea d) = [] /\
  w' = if (getRobotType d =? 0)%Z
       then setAutonomousRobots
              (autonomousRobots w ++
               [AutonomousRobot.new (getX d) (getY d) (getOrientation d)
                  (getDetectionRadius d) (getAvoidanceAngle d) (getSpeed d)])
              w
       else setRemoteRobots
              (remoteRobots w ++
               [RemoteRobot.new (getX d) (getY d) (getSpeed d)
                  (getDetectionRadius d)])
              w.
Proof.
  unfold createRobot. fold (robotArea d).
  destruct (itemsIn w (robotArea d)) as [| it found]; [| discriminate].
  destruct (getRobotType d =? 0)%Z; intros H; injection H as <-;
    split; reflexivity.
Qed.

Lemma itemRect_robot (it : Item) (b : Robot.t) :
  robotBase it = Some b -> itemRect it = Robot.sceneBoundingRect b.
Proof. destruct it; simpl; intros H; try discriminate; injection H as <-; reflexivity. Qed.

(** A robot that [createRobot] accepts is at least 40 away, on one axis or
    the other, from every robot already in the scene. *)
Theorem accepted_robot_is_apart (d : RobotDialog) (w w' : t)
    (it : Item) (b : Robot.t) :
  createRobot (Some d) w = (w', None) ->
  In it (sceneItems w) ->
  robotBase it = Some b ->
  (40 <= Rabs (getX d - px (Robot.pos b)) \/
   40 <= Rabs (getY d - py (Robot.pos b)))%R.
Proof.
  intros Hok Hin Hb. apply createRobot_accepted in Hok as [Hnone _].
  assert (Hno : intersects (robotArea d) (itemRect it) <> true).
  { intros Hov. assert (Hf : In it (itemsIn w (robotArea d)))
      by (apply itemsIn_In; split; assumption).
    rewrite Hnone in Hf. destruct Hf. }
  rewrite (itemRect_robot it b Hb) in Hno. unfold robotArea in Hno.
  rewrite robot_areas_intersect in Hno.
  destruct (Rlt_le_dec (Rabs (getX d - px (Robot.pos b))) 40) as [Hx | Hx];
    [| left; exact Hx].
  destruct (Rlt_le_dec (Rabs (getY d - py (Robot.pos b))) 40) as [Hy | Hy];
    [| right; exact Hy].
  exfalso. apply Hno. split; assumption.
Qed.

Lemma createRobot_far_accepted :
  createRobot (Some (mkRobotDialog 1 0 5 50 500 500 0)) occupiedWindow
  = (setRemoteRobots
       [RemoteRobot.new 200 200 5 50; RemoteRobot.new 500 500 5 50]
       occupiedWindow, None).
Proof.
  unfold createRobot, itemsIn. simpl. settle_intersects.
Qed.

Lemma accepted_robot_is_apart_witness :
  (40 <= Rabs (500 - 200) \/ 40 <= Rabs (500 - 200))%R.
Proof.
  apply (accepted_robot_is_apart (mkRobotDialog 1 0 5 50 500 500 0)
           occupiedWindow _
           (RemoteItem (RemoteRobot.new 200 200 5 50))
           (RemoteRobot.base (RemoteRobot.new 200 200 5 50))
           createRobot_far_accepted).
  - simpl. left. reflexivity.
  - reflexivity.
Defined.

Lemma filter_nil_app {A : Type} (f : A -> bool) (l k : list A) :
  List.filter f (l ++ k) = [] ->
  List.filter f l = [] /\ List.filter f k = [].
Proof. rewrite List.filter_app. apply app_eq_nil. Qed.

(** When [createRobot] has accepted a robot, asking for the same robot
    again is turned down, the window stays as it is, and the message names
    a robot and nothing else. *)
Theorem same_robot_twice_rejected (d : RobotDialog) (w w' : t) :
  createRobot (Some d) w = (w', None) ->
  createRobot (Some d) w'
  = (w', Some "Cannot place a robot here. The space is already occupied by another robot.").
Proof.
  intros Hok. apply createRobot_accepted in Hok as [Hnone Hw'].
  unfold itemsIn, sceneItems in Hnone.
  apply filter_nil_app in Hnone as [Ha Hrest].
  apply filter_nil_app in Hrest as [Hr Ho].
  assert (Hself : forall b : Robot.t,
            Robot.pos b = mkPoint (getX d) (getY d) ->
            intersects (robotArea d) (Robot.sceneBoundingRect b) = true).
  { intros b Hb. unfold robotArea. apply robot_areas_intersect.
    rewrite Hb. simpl. rewrite !Rminus_diag, Rabs_R0. lra. }
  assert (Hfound : exists it,
            itemsIn w' (robotArea d) = [it] /\ isRobot it = true).
  { unfold itemsIn, sceneItems. rewrite Hw'.
    destruct (getRobotType d =? 0)%Z; simpl.
    - eexists. rewrite fmap_app, !List.filter_app, Ha, Hr, Ho. simpl.
      rewrite Hself by reflexivity. split; reflexivity.
    - eexists. rewrite fmap_app, !List.filter_app, Ha, Hr, Ho. simpl.
      rewrite Hself by reflexivity. split; reflexivity. }
  destruct Hfound as (it & Hfound & Hrobot).
  unfold createRobot. fold (robotArea d). rewrite Hfound.
  unfold occupant. simpl. rewrite Hrobot, isObstacle_isRobot, Hrobot.
  reflexivity.
Qed.

Lemma same_robot_twice_rejected_witness :
  createRobot (Some (mkRobotDialog 1 0 5 50 500 500 0))
    (setRemoteRobots
       [RemoteRobot.new 200 200 5 50; RemoteRobot.new 500 500 5 50]
       occupiedWindow)
  = (setRemoteRobots
       [RemoteRobot.new 200 200 5 50; RemoteRobot.new 500 500 5 50]
       occupiedWindow,
     Some "Cannot place a robot here. The space is already occupied by another robot.").
Proof.
  apply (same_robot_twice_rejected _ occupiedWindow).
  exact createRobot_far_accepted.
Defined.

(** [clearScene] empties the scene and forgets the selection but leaves
    the timer as it is; afterwards every placement is accepted, and a tick
    finds nothing to update and changes nothing. *)
Theorem clearScene_leaves_empty_scene (w : t)
    (detectA : list Item -> AutonomousRobot.t -> bool)
    (detectR : list Item -> RemoteRobot.t -> bool) :
  sceneItems (clearScene w) = [] /\
  selectedRobot (clearScene w) = None /\
  timerActive (clearScene w) = timerActive w /\
  (forall d : RobotDialog,
     snd (createRobot (Some d) (clearScene w)) = None /\
     entityCount (fst (createRobot (Some d) (clearScene w))) = 1) /\
  (forall x y width : Z,
     snd (createObstacle (Some (x, y, width)) (clearScene w)) = None /\
     entityCount (fst (createObstacle (Some (x, y, width)) (clearScene w)))
     = 1) /\
  updateRobots detectA detectR (clearScene w) = (clearScene w, []).
Proof.
  split; [reflexivity |]. split; [reflexivity |]. split; [reflexivity |].
  split; [| split; [| reflexivity]].
  - intros d. unfold createRobot, itemsIn. simpl.
    destruct (getRobotType d =? 0)%Z; split; reflexivity.
  - intros x y width. split; reflexivity.
Qed.

(** The steering slots write at most the selected robot: every other
    remote robot, the autonomous robots and the obstacles are as before.
    While the timer is stopped the move and rotate slots do nothing at
    all. *)
Theorem steering_reaches_only_selected (w : t) (j : nat) :
  selectedRobot w <> Some j ->
  (remoteRobots (moveRobot w) !! j = remoteRobots w !! j /\
   remoteRobots (rotateRobotRight w) !! j = remoteRobots w !! j /\
   remoteRobots (rotateRobotLeft w) !! j = remoteRobots w !! j /\
   remoteRobots (stopRobot w) !! j = remoteRobots w !! j) /\
  (autonomousRobots (moveRobot w) = autonomousRobots w /\
   autonomousRobots (rotateRobotRight w) = autonomousRobots w /\
   autonomousRobots (rotateRobotLeft w) = autonomousRobots w /\
   autonomousRobots (stopRobot w) = autonomousRobots w) /\
  (obstacles (moveRobot w) = obstacles w /\
   obstacles (rotateRobotRight w) = obstacles w /\
   obstacles (rotateRobotLeft w) = obstacles w /\
   obstacles (stopRobot w) = obstacles w) /\
  (timerActive w = false ->
   moveRobot w = w /\ rotateRobotRight w = w /\ rotateRobotLeft w = w).
Proof.
  intros Hsel.
  assert (Hon : forall f, remoteRobots (onSelected f w) !! j
                          = remoteRobots w !! j).
  { intros f. unfold onSelected.
    destruct (selectedRobot w) as [s |]; [simpl | reflexivity].
    apply list_lookup_alter_ne. congruence. }
  assert (Hframe : forall f, autonomousRobots (onSelected f w)
                             = autonomousRobots w /\
                             obstacles (onSelected f w) = obstacles w).
  { intros f. unfold onSelected. destruct (selectedRobot w); split;
      reflexivity. }
  unfold moveRobot, rotateRobotRight, rotateRobotLeft, stopRobot.
  destruct (timerActive w).
  - repeat split; try apply Hon; try apply Hframe; discriminate.
  - repeat split; try apply Hon; try apply Hframe.
Qed.

Lemma steering_reaches_only_selected_witness :
  remoteRobots (moveRobot (selectRobot 0 twoRemotes)) !! 1
  = remoteRobots (selectRobot 0 twoRemotes) !! 1 /\
  moveRobot (selectRobot 0 (stopSimulation twoRemotes))
  = selectRobot 0 (stopSimulation twoRemotes).
Proof.
  split.
  - apply (steering_reaches_only_selected (selectRobot 0 twoRemotes) 1).
    simpl. discriminate.
  - apply (steering_reaches_only_selected
             (selectRobot 0 (stopSimulation twoRemotes)) 1).
    + simpl. discriminate.
    + reflexivity.
Defined.

End SceneFacts.

(** ** Further properties of the simulation tick *)

Module PopulationFacts.

Import MainWindow Scene Geometry Behaviour RobotFacts TickFacts.

Section Loops.

Variable autonomousDetect : list Item -> AutonomousRobot.t -> bool.
Variable remoteDetect : list Item -> RemoteRobot.t -> bool.

Abbreviation stepA := (stepAutonomous autonomousDetect).
Abbreviation stepR := (stepRemote remoteDetect).
Abbreviation tick := (updateRobots autonomousDetect remoteDetect).

(** The second loop leaves the autonomous robots alone. *)
Lemma remote_steps_keep_autonomous (js : list nat) :
  forall st : t * list UpdateCall,
    autonomousRobots (fst (foldl stepR st js)) = autonomousRobots (fst st).
Proof.
  induction js as [| j js IH]; intros [w calls]; [reflexivity |].
  rewrite foldl_step, IH.
  apply (stepRemote_spec remoteDetect w calls j).
Qed.

(** A tick neither adds nor removes anything: both lists of robots keep
    their lengths, the obstacles are the same, and so are the selection and
    the state of the timer. *)
Theorem tick_keeps_population (w : t) :
  length (autonomousRobots (fst (tick w))) = length (autonomousRobots w) /\
  length (remoteRobots (fst (tick w))) = length (remoteRobots w) /\
  obstacles (fst (tick w)) = obstacles w /\
  selectedRobot (fst (tick w)) = selectedRobot w /\
  timerActive (fst (tick w)) = timerActive w /\
  entityCount (fst (tick w)) = entityCount w.
Proof.
  assert (Ha : length (autonomousRobots (fst (tick w)))
               = length (autonomousRobots w)).
  { rewrite (tick_unfold autonomousDetect remoteDetect). cbv zeta.
    rewrite remote_steps_keep_autonomous.
    apply (autonomous_loop autonomousDetect
             (length (autonomousRobots w)) 0 w []). lia. }
  destruct (tick_spec autonomousDetect remoteDetect w)
    as ((Fo & Fs & Ft) & Hr & _).
  split; [exact Ha |]. split; [exact Hr |]. split; [exact Fo |].
  split; [exact Fs |]. split; [exact Ft |].
  unfold entityCount, sceneItems.
  rewrite !length_app, !length_fmap, Ha, Hr, Fo. reflexivity.
Qed.

(** One iteration of the first loop, robot by robot. *)
Lemma stepAutonomous_at (w : t) (calls : list UpdateCall) (i : nat) :
  let st' := stepA (w, calls) i in
  (forall j, j <> i ->
     autonomousRobots (fst st') !! j = autonomousRobots w !! j) /\
  (forall r, autonomousRobots w !! i = Some r ->
     exists r',
       autonomousRobots (fst st') !! i = Some r' /\
       position (AutonomousRobot.base r')
       = position (Robot.interpolate (AutonomousRobot.base r)
                                     (AutonomousRobot.orientation r))).
Proof.
  cbv zeta. unfold stepAutonomous.
  destruct (autonomousRobots w !! i) as [robot |] eqn:E; simpl.
  - split.
    + intros j Hj. apply list_lookup_insert_ne. congruence.
    + intros r Hr. injection Hr as <-. eexists. split.
      * apply list_lookup_insert_eq. eapply lookup_lt_Some, E.
      * apply autonomous_update_base.
  - split; [reflexivity | intros r Hr; discriminate Hr].
Qed.

Lemma autonomous_loop_moves (n : nat) :
  forall (k : nat) (w : t) (calls : list UpdateCall),
    let st' := foldl stepA (w, calls) (seq k n) in
    (forall j, j < k ->
       autonomousRobots (fst st') !! j = autonomousRobots w !! j) /\
    (forall j r,
       k <= j < k + n -> autonomousRobots w !! j = Some r ->
       exists r',
         autonomousRobots (fst st') !! j = Some r' /\
         position (AutonomousRobot.base r')
         = position (Robot.interpolate (AutonomousRobot.base r)
                                       (AutonomousRobot.orientation r))).
Proof.
  induction n as [| n IH]; intros k w calls; cbv zeta.
  - simpl. split; [reflexivity | intros j r Hj; lia].
  - rewrite <- cons_seq, foldl_step.
    pose proof (stepAutonomous_at w calls k) as H1. cbv zeta in H1.
    destruct (stepA (w, calls) k) as [w1 c1]. simpl in H1.
    destruct H1 as (O1 & M1).
    destruct (IH (S k) w1 c1) as (B2 & M2).
    split.
    + intros j Hj. rewrite B2 by lia. apply O1. lia.
    + intros j r Hj Er. destruct (decide (j = k)) as [-> | Hne].
      * destruct (M1 r Er) as (r' & E' & Hpos).
        exists r'. split; [rewrite B2 by lia; exact E' | exact Hpos].
      * apply M2; [lia |]. rewrite O1 by exact Hne. exact Er.
Qed.

(** A tick moves every autonomous robot of the scene, whatever the others
    do: each one ends the tick one tenth of the way from where it started
    to its own target. *)
Theorem tick_moves_every_autonomous_robot
    (w : t) (i : nat) (r : AutonomousRobot.t) :
  autonomousRobots w !! i = Some r ->
  exists r',
    autonomousRobots (fst (tick w)) !! i = Some r' /\
    at_fraction 0.1
      (position (AutonomousRobot.base r))
      (target (AutonomousRobot.base r) (AutonomousRobot.orientation r))
      (position (AutonomousRobot.base r')).
Proof.
  intros Er. rewrite (tick_unfold autonomousDetect remoteDetect). cbv zeta.
  rewrite remote_steps_keep_autonomous.
  destruct (autonomous_loop_moves (length (autonomousRobots w)) 0 w [])
    as (_ & M).
  destruct (M i r) as (r' & E' & Hpos);
    [apply lookup_lt_Some in Er; lia | exact Er |].
  exists r'. split; [exact E' |]. rewrite Hpos.
  apply interpolate_position.
Qed.

(** One iteration of the second loop leaves alone a robot that is neither
    selected nor moving. *)
Lemma stepRemote_untouched (w : t) (calls : list UpdateCall) (j i : nat) :
  selectedRobot w <> Some i ->
  movingAt w i = false ->
  remoteRobots (fst (stepR (w, calls) j)) !! i = remoteRobots w !! i.
Proof.
  intros Hsel Hidle. unfold stepRemote.
  destruct (remoteRobots w !! j) as [r |] eqn:E; [| reflexivity].
  fold (afterIntent w r).
  assert (Hi : remoteRobots (afterIntent w r) !! i = remoteRobots w !! i).
  { unfold afterIntent, rotateRobotRight, rotateRobotLeft, onSelected.
    repeat case_decide; destruct (timerActive w); try reflexivity;
      (destruct (selectedRobot w) as [s |]; [simpl | reflexivity];
       apply list_lookup_alter_ne; congruence). }
  destruct (remoteRobots (afterIntent w r) !! j) as [robot |] eqn:E1;
    [| exact Hi].
  destruct (Robot.isMoving (RemoteRobot.base robot)) eqn:Em; [| exact Hi].
  simpl. rewrite list_lookup_insert_ne; [exact Hi |].
  intros ->. rewrite Hi in E1. unfold movingAt in Hidle.
  rewrite E1 in Hidle. congruence.
Qed.

Lemma remote_loop_untouched (i : nat) (js : list nat) :
  forall (w : t) (calls : list UpdateCall),
    selectedRobot w <> Some i ->
    movingAt w i = false ->
    remoteRobots (fst (foldl stepR (w, calls) js)) !! i
    = remoteRobots w !! i.
Proof.
  induction js as [| j js IH]; intros w calls Hsel Hidle; [reflexivity |].
  rewrite foldl_step.
  pose proof (stepRemote_untouched w calls j i Hsel Hidle) as H1.
  destruct (stepRemote_spec remoteDetect w calls j) as ((_ & Fs & _) & _).
  destruct (stepR (w, calls) j) as [w1 c1]. simpl in H1, Fs.
  rewrite IH; [exact H1 | rewrite Fs; exact Hsel |].
  unfold movingAt. rewrite H1. exact Hidle.
Qed.

(** A remote robot that is neither the selected one nor moving comes out
    of a tick exactly as it went in, rotation intent included: no tick ever
    acts on, or clears, the intent of a robot that is no longer
    selected. *)
Theorem tick_leaves_unselected_idle_robot (w : t) (i : nat) :
  selectedRobot w <> Some i ->
  movingAt w i = false ->
  remoteRobots (fst (tick w)) !! i = remoteRobots w !! i.
Proof.
  intros Hsel Hidle.
  rewrite (tick_unfold autonomousDetect remoteDetect). cbv zeta.
  destruct (autonomous_loop autonomousDetect
              (length (autonomousRobots w)) 0 w [])
    as ((_ & Fs & _) & R1 & _); [lia |].
  destruct (foldl stepA (w, []) (seq 0 (length (autonomousRobots w))))
    as [w1 c1]. simpl in Fs, R1. simpl fst.
  rewrite remote_loop_untouched.
  - rewrite R1. reflexivity.
  - rewrite Fs. exact Hsel.
  - unfold movingAt. rewrite R1. exact Hidle.
Qed.

End Loops.

Lemma tick_moves_every_autonomous_robot_witness :
  let r := AutonomousRobot.new 100 100 1 50 15 10 in
  let w := setAutonomousRobots [r] twoRemotes in
  exists r',
    autonomousRobots
      (fst (updateRobots (fun _ _ => true) (fun _ _ => false) w)) !! 0
    = Some r' /\
    at_fraction 0.1
      (position (AutonomousRobot.base r))
      (target (AutonomousRobot.base r) (AutonomousRobot.orientation r))
      (position (AutonomousRobot.base r')).
Proof.
  intros r w.
  apply (tick_moves_every_autonomous_robot
           (fun _ _ => true) (fun _ _ => false) w 0 r).
  reflexivity.
Defined.

Lemma tick_leaves_unselected_idle_robot_witness :
  let w := selectRobot 1 (rotateRobotRight (selectRobot 0 twoRemotes)) in
  remoteRobots (fst (updateRobots (fun _ _ => false) (fun _ _ => false) w))
  !! 0
  = remoteRobots w !! 0.
Proof.
  intros w.
  apply (tick_leaves_unselected_idle_robot
           (fun _ _ => false) (fun _ _ => false) w 0).
  - simpl. discriminate.
  - reflexivity.
Defined.

End PopulationFacts.

(** ** Further properties of the scene loader *)

Module BlockFacts.

Import MainWindow Scene Behaviour LoadFacts.
Local Open Scope string_scope.

Lemma append_assoc (a b c : string) : (a ++ b) ++ c = a ++ (b ++ c).
Proof.
  induction a as [| x a IH]; [reflexivity |].
  change (String x ((a ++ b) ++ c) = String x (a ++ (b ++ c))).
  rewrite IH. reflexivity.
Qed.

(** *** The four kinds of line *)

Lemma loadLine_skipped (st : Loader) (line : string) :
  isSkipped line = true -> loadLine st line = st.
Proof. unfold isSkipped, loadLine. intros ->. reflexivity. Qed.

Lemma loadLine_header (st : Loader) (line : string) :
  isHeader line = true ->
  loadLine st line
  = {| window := window st; buffer := ""; currentType := headerType line |}.
Proof.
  unfold isHeader, isSkipped, loadLine, headerType. intros H.
  apply andb_true_iff in H as [Hs He]. apply negb_true_iff in Hs.
  rewrite Hs, He. reflexivity.
Qed.

Lemma loadLine_body (st : Loader) (line : string) :
  isBodyLine line = true ->
  loadLine st line
  = {| window := window st;
       buffer := buffer st ++ trimmed line ++ String "010" "";
       currentType := currentType st |}.
Proof.
  unfold isBodyLine, isSkipped, loadLine. intros H.
  apply andb_true_iff in H as [H Hc]. apply andb_true_iff in H as [Hs He].
  apply negb_true_iff in Hs, He, Hc.
  rewrite Hs, He, Hc. reflexivity.
Qed.

Lemma loadLine_closing (st : Loader) (line : string) :
  isClosing line = true ->
  loadLine st line
  = if negb (isEmpty (currentType st))
    then {| window := processObject (currentType st) (buffer st) (window st);
            buffer := buffer st; currentType := "" |}
    else st.
Proof.
  unfold isClosing, isSkipped, loadLine. intros H.
  apply andb_true_iff in H as [H Hc]. apply andb_true_iff in H as [Hs He].
  apply negb_true_iff in Hs, He.
  rewrite Hs, He, Hc. reflexivity.
Qed.

Lemma line_kinds (line : string) :
  isSkipped line = true \/ isHeader line = true \/
  isClosing line = true \/ isBodyLine line = true.
Proof.
  unfold isHeader, isClosing, isBodyLine.
  destruct (isSkipped line); [left; reflexivity | right].
  destruct (endsWith (trimmed line) "{"); [left; reflexivity | right].
  destruct (startsWith (trimmed line) "}"); [left | right]; reflexivity.
Qed.

Lemma loadLine_window (st : Loader) (line : string) :
  window (loadLine st line)
  = if isClosing line && negb (isEmpty (currentType st))
    then processObject (currentType st) (buffer st) (window st)
    else window st.
Proof.
  destruct (isClosing line) eqn:Ec.
  - rewrite loadLine_closing by exact Ec. simpl.
    destruct (negb (isEmpty (currentType st))); reflexivity.
  - simpl. destruct (line_kinds line) as [H | [H | [H | H]]].
    + rewrite loadLine_skipped by exact H. reflexivity.
    + rewrite loadLine_header by exact H. reflexivity.
    + congruence.
    + rewrite loadLine_body by exact H. reflexivity.
Qed.

(** Blank lines and lines that start with "#" count for nothing, wherever
    they stand: the loader does with a file what it does with the file
    stripped of them. *)
Theorem comments_and_blank_lines_ignored (st : Loader) (lines : list string)
    (text : string) (w : t) :
  loadLines st lines
  = loadLines st (List.filter (fun line => negb (isSkipped line)) lines) /\
  loadSceneFromFile (Some text) w
  = window
      (loadLines (startLoading w)
         (List.filter (fun line => negb (isSkipped line))
                      (split "010" text))).
Proof.
  assert (H : forall ls s,
            loadLines s ls
            = loadLines s
                (List.filter (fun line => negb (isSkipped line)) ls)).
  { induction ls as [| l ls IH]; intros s; [reflexivity |].
    unfold loadLines in *. simpl.
    destruct (isSkipped l) eqn:E; simpl.
    - rewrite loadLine_skipped by exact E. apply IH.
    - apply IH. }
  split; [apply H |].
  unfold loadSceneFromFile. fold (startLoading w).
  fold (loadLines (startLoading w) (split "010" text)).
  rewrite H. reflexivity.
Qed.

(** *** What loading adds *)

Lemma extends_refl (w : t) : extends w w.
Proof. repeat split; reflexivity. Qed.

Lemma extends_trans (w1 w2 w3 : t) :
  extends w1 w2 -> extends w2 w3 -> extends w1 w3.
Proof.
  intros (A1 & A2 & A3 & A4 & A5 & A6 & A7) (B1 & B2 & B3 & B4 & B5 & B6 & B7).
  repeat split; try (etransitivity; eassumption); congruence.
Qed.

Lemma processObject_extends (type attributes : string) (w : t) :
  extends w (processObject type attributes w).
Proof.
  unfold processObject, processParams.
  repeat match goal with
         | |- context [String.eqb ?a ?b] => destruct (String.eqb a b)
         end;
    repeat split; simpl; try reflexivity; apply prefix_app_r; reflexivity.
Qed.

Lemma loadLines_extends (lines : list string) :
  forall st : Loader, extends (window st) (window (loadLines st lines)).
Proof.
  induction lines as [| l lines IH]; intros st; [apply extends_refl |].
  unfold loadLines in *. simpl.
  eapply extends_trans; [| apply IH].
  rewrite loadLine_window.
  destruct (isClosing l && negb (isEmpty (currentType st)));
    [apply processObject_extends | apply extends_refl].
Qed.

(** Loading only ever adds: every robot and obstacle the window had is
    still there, at the same index of its list, and the selection, the
    timer and the deleting modes are untouched, whatever the file holds
    and also when it cannot be opened or no file was chosen. *)
Theorem loading_only_adds (fileName : string)
    (readFile : string -> option string) (file : option string) (w : t) :
  extends w (loadSceneFromFile file w) /\
  extends w (onLoadFileClicked fileName readFile w).
Proof.
  assert (H : forall f, extends w (loadSceneFromFile f w)).
  { intros [text |]; [| apply extends_refl].
    apply (loadLines_extends (split "010" text) (startLoading w)). }
  split; [apply H |].
  unfold onLoadFileClicked.
  destruct (isEmpty fileName); [apply extends_refl | apply H].
Qed.

Lemma entityCount_sum (w : t) :
  entityCount w
  = length (autonomousRobots w) + length (remoteRobots w)
    + length (obstacles w).
Proof.
  unfold entityCount, sceneItems.
  rewrite !length_app, !length_fmap. lia.
Qed.

Lemma processObject_count (type attributes : string) (w : t) :
  entityCount (processObject type attributes w)
  = entityCount w + (if knownType type then 1 else 0).
Proof.
  rewrite !entityCount_sum. unfold processObject, processParams, knownType.
  destruct (String.eqb type "AutonomousRobot");
    [simpl; rewrite length_app; simpl; lia |].
  destruct (String.eqb type "RemoteRobot");
    [simpl; rewrite length_app; simpl; lia |].
  destruct (String.eqb type "Obstacle");
    [simpl; rewrite length_app; simpl; lia |].
  simpl. lia.
Qed.

(** [processObject] adds exactly one entity when the type name is one of
    the three it knows, with no regard to what the scene already holds, and
    leaves the window as it is for any other name. *)
Theorem processObject_adds_one_or_nothing (type attributes : string) (w : t) :
  if knownType type
  then entityCount (processObject type attributes w) = S (entityCount w)
  else processObject type attributes w = w.
Proof.
  pose proof (processObject_count type attributes w) as Hc.
  destruct (knownType type) eqn:Ek; [lia |].
  unfold knownType in Ek. apply orb_false_iff in Ek as [Ek Eo].
  apply orb_false_iff in Ek as [Ea Er].
  unfold processObject, processParams. rewrite Ea, Er, Eo. reflexivity.
Qed.

Lemma loadLines_count (lines : list string) :
  forall st : Loader,
    entityCount (window (loadLines st lines))
    <= entityCount (window st) + length (List.filter isClosing lines).
Proof.
  induction lines as [| l lines IH]; intros st; [simpl; lia |].
  unfold loadLines in *. simpl foldl. specialize (IH (loadLine st l)).
  assert (Hstep : entityCount (window (loadLine st l))
                  <= entityCount (window st)
                     + (if isClosing l then 1 else 0)).
  { rewrite loadLine_window. destruct (isClosing l); simpl.
    - destruct (negb (isEmpty (currentType st))); [| lia].
      rewrite processObject_count. destruct (knownType _); lia.
    - lia. }
  simpl List.filter. destruct (isClosing l); simpl length in *; lia.
Qed.

(** A file adds at most one entity for each of its lines that close a
    block; a file without such a line adds nothing. *)
Theorem load_adds_at_most_one_per_closing_line (text : string) (w : t) :
  entityCount (loadSceneFromFile (Some text) w)
  <= entityCount w + length (List.filter isClosing (split "010" text)) /\
  (List.filter isClosing (split "010" text) = [] ->
   loadSceneFromFile (Some text) w = w).
Proof.
  split; [apply (loadLines_count (split "010" text) (startLoading w)) |].
  intros Hnone. unfold loadSceneFromFile. fold (startLoading w).
  fold (loadLines (startLoading w) (split "010" text)).
  assert (H : forall ls st,
            List.filter isClosing ls = [] ->
            window (loadLines st ls) = window st).
  { induction ls as [| l ls IH]; intros st Hf; [reflexivity |].
    unfold loadLines in *. simpl foldl. simpl in Hf.
    destruct (isClosing l) eqn:Ec; [discriminate Hf |].
    rewrite IH by exact Hf. rewrite loadLine_window, Ec. reflexivity. }
  apply (H _ (startLoading w) Hnone).
Qed.

Lemma load_adds_at_most_one_per_closing_line_witness :
  loadSceneFromFile
    (Some ("Obstacle {" ++ nl ++ "positionX = 10" ++ nl ++ "width = 20"))
    occupiedWindow
  = occupiedWindow.
Proof.
  apply load_adds_at_most_one_per_closing_line. reflexivity.
Defined.

(** *** Blocks *)

Lemma append_nil_r (a : string) : a ++ "" = a.
Proof.
  induction a as [| x a IH]; [reflexivity |].
  change (String x (a ++ "") = String x a). rewrite IH. reflexivity.
Qed.

Lemma loadLines_app (st : Loader) (l k : list string) :
  loadLines st (l ++ k) = loadLines (loadLines st l) k.
Proof. apply foldl_app. Qed.

Lemma body_lines_buffered (bs : list string) :
  forallb isBodyLine bs = true ->
  forall (w : t) (b T : string),
    loadLines {| window := w; buffer := b; currentType := T |} bs
    = {| window := w; buffer := b ++ bodyText bs; currentType := T |}.
Proof.
  induction bs as [| l bs IH]; intros Hall w b T.
  - unfold loadLines, bodyText. simpl. rewrite append_nil_r. reflexivity.
  - simpl in Hall. apply andb_true_iff in Hall as [Hl Hall].
    change (loadLines {| window := w; buffer := b; currentType := T |}
              (l :: bs))
      with (loadLines
              (loadLine {| window := w; buffer := b; currentType := T |} l)
              bs).
    rewrite loadLine_body by exact Hl. simpl window. simpl buffer.
    simpl currentType. rewrite IH by exact Hall.
    change (bodyText (l :: bs))
      with (trimmed l ++ String "010" "" ++ bodyText bs).
    rewrite !append_assoc. reflexivity.
Qed.

(** Once no block is open, what the buffer holds no longer matters. *)
Lemma buffer_forgotten (rest : list string) :
  forall (w : t) (b b' : string),
    window (loadLines {| window := w; buffer := b; currentType := "" |} rest)
    = window
        (loadLines {| window := w; buffer := b'; currentType := "" |} rest).
Proof.
  induction rest as [| l rest IH]; intros w b b'; [reflexivity |].
  change (loadLines ?st (l :: rest)) with (loadLines (loadLine st l) rest).
  destruct (line_kinds l) as [H | [H | [H | H]]].
  - rewrite !loadLine_skipped by exact H. apply IH.
  - rewrite !loadLine_header by exact H. reflexivity.
  - rewrite !loadLine_closing by exact H. simpl. apply IH.
  - rewrite !loadLine_body by exact H. simpl. apply IH.
Qed.

(** A header line, body lines and a closing line act as one call of
    [processObject] with the announced type and the trimmed body lines,
    whatever state the loader was in before and whatever follows: the rest
    of the file is then read as if from a fresh start on the new window. *)
Theorem block_is_one_processObject
    (st : Loader) (header closing : string) (body rest : list string) :
  isHeader header = true ->
  forallb isBodyLine body = true ->
  isClosing closing = true ->
  window (loadLines st (header :: body ++ closing :: rest))
  = window
      (loadLines
         (startLoading
            (processObject (headerType header) (bodyText body) (window st)))
         rest).
Proof.
  intros Hh Hb Hc.
  change (loadLines st (header :: body ++ closing :: rest))
    with (loadLines (loadLine st header) (body ++ closing :: rest)).
  rewrite loadLine_header by exact Hh.
  rewrite loadLines_app, body_lines_buffered by exact Hb.
  change (loadLines ?s (closing :: rest))
    with (loadLines (loadLine s closing) rest).
  rewrite loadLine_closing by exact Hc. simpl currentType.
  simpl buffer. simpl window. unfold startLoading.
  destruct (headerType header) as [| x T] eqn:ET.
  - simpl negb. cbv iota.
    change (processObject "" (bodyText body) (window st)) with (window st).
    apply buffer_forgotten.
  - simpl negb. cbv iota. apply buffer_forgotten.
Qed.

Lemma block_is_one_processObject_witness :
  window
    (loadLines (startLoading new)
       ["Obstacle {"; "positionX = 10"; "  width = 20"; "}"])
  = window
      (loadLines
         (startLoading
            (processObject "Obstacle"
               ("positionX = 10" ++ nl ++ "width = 20" ++ nl) new))
         []).
Proof.
  apply (block_is_one_processObject (startLoading new) "Obstacle {" "}"
           ["positionX = 10"; "  width = 20"] []);
    reflexivity.
Defined.

End BlockFacts.

(** ** Further properties of the attribute parser *)

Module AttributeFacts.

Import MainWindow Scene Behaviour LoadFacts BlockFacts.
Local Open Scope string_scope.

Lemma split_aux_sep (c : ascii) (a b : string) :
  forall cur : string,
    split_aux c (a ++ String c b) cur
    = (split_aux c a cur ++ split_aux c b "")%list.
Proof.
  induction a as [| x a IH]; intros cur.
  - change ("" ++ String c b) with (String c b). simpl.
    rewrite Ascii.eqb_refl. reflexivity.
  - change (String x a ++ String c b) with (String x (a ++ String c b)).
    simpl. destruct (Ascii.eqb x c); [rewrite IH; reflexivity | apply IH].
Qed.

Lemma split_aux_plain (c : ascii) (s : string) :
  forall cur : string,
    hasChar c s = false -> split_aux c s cur = [rev_string cur s].
Proof.
  induction s as [| x s IH]; intros cur H; [reflexivity |].
  simpl in H. apply orb_false_iff in H as [Hx Hs].
  simpl. rewrite Hx. apply IH, Hs.
Qed.

Lemma hasChar_rev (c : ascii) (s : string) :
  forall acc : string,
    hasChar c (rev_string s acc) = hasChar c s || hasChar c acc.
Proof.
  induction s as [| x s IH]; intros acc; [reflexivity |].
  simpl. rewrite IH. simpl.
  destruct (Ascii.eqb x c), (hasChar c s), (hasChar c acc); reflexivity.
Qed.

Lemma hasChar_dropSpaces (c : ascii) (s : string) :
  isSpace c = false -> hasChar c (dropSpaces s) = hasChar c s.
Proof.
  intros Hc. induction s as [| x s IH]; [reflexivity |].
  change (dropSpaces (String x s))
    with (if isSpace x then dropSpaces s else String x s).
  destruct (isSpace x) eqn:Ex; [| reflexivity].
  rewrite IH. simpl.
  destruct (Ascii.eqb_spec x c) as [-> | _]; [congruence | reflexivity].
Qed.

Lemma hasChar_trimmed (c : ascii) (s : string) :
  isSpace c = false -> hasChar c (trimmed s) = hasChar c s.
Proof.
  intros Hc. unfold trimmed.
  rewrite hasChar_rev, hasChar_dropSpaces, hasChar_rev, hasChar_dropSpaces
    by exact Hc.
  simpl. rewrite !orb_false_r. reflexivity.
Qed.

(** A text with "=" in it is not blank; a blank text assigns nothing. *)
Lemma blank_has_no_equals (x : string) :
  isEmpty (trimmed x) = true -> hasChar "=" x = false.
Proof.
  intros H. rewrite <- (hasChar_trimmed "=" x) by reflexivity.
  destruct (trimmed x); [reflexivity | discriminate H].
Qed.

Lemma addAttribute_plain (params : gmap string string) (x : string) :
  hasChar "=" x = false -> addAttribute params x = params.
Proof.
  intros H. unfold addAttribute, split.
  rewrite split_aux_plain by exact H. reflexivity.
Qed.

Lemma split_bodyText (ls : list string) :
  singleLines ls = true ->
  split "010" (bodyText ls) = (map trimmed ls ++ [""])%list.
Proof.
  induction ls as [| l ls IH]; intros H; [reflexivity |].
  simpl in H. apply andb_true_iff in H as [Hl Hls].
  apply negb_true_iff in Hl.
  change (bodyText (l :: ls)) with (trimmed l ++ String "010" (bodyText ls)).
  unfold split. rewrite split_aux_sep, split_aux_plain by exact Hl.
  fold (split "010" (bodyText ls)). rewrite IH by exact Hls. reflexivity.
Qed.

Lemma parseAttributes_bodyText (ls : list string) :
  singleLines ls = true ->
  parseAttributes (bodyText ls)
  = foldl addAttribute ∅
      (List.filter (fun line => negb (isEmpty (trimmed line)))
                   (map trimmed ls)).
Proof.
  intros H. unfold parseAttributes. rewrite split_bodyText by exact H.
  rewrite List.filter_app. simpl List.filter at 2.
  rewrite app_nil_r. reflexivity.
Qed.

Lemma singleLines_app (l k : list string) :
  singleLines (l ++ k) = singleLines l && singleLines k.
Proof. apply forallb_app. Qed.

Lemma parse_one_more_line (body : list string) (line : string) :
  singleLines (body ++ [line]) = true ->
  parseAttributes (bodyText (body ++ [line]))
  = addAttribute (parseAttributes (bodyText body)) (trimmed line).
Proof.
  intros H. rewrite parseAttributes_bodyText by exact H.
  rewrite singleLines_app in H. apply andb_true_iff in H as [Hb _].
  rewrite parseAttributes_bodyText by exact Hb.
  rewrite map_app, List.filter_app, foldl_app. simpl map.
  simpl List.filter.
  destruct (isEmpty (trimmed (trimmed line))) eqn:E; simpl.
  - rewrite addAttribute_plain; [reflexivity |].
    apply blank_has_no_equals, E.
  - reflexivity.
Qed.

(** The attributes of a block are read line by line, in order.  A body
    line with exactly one "=" binds the trimmed text before it to the
    trimmed text after it, replacing what an earlier line bound to the same
    key; a body line with no "=" or with more than one changes nothing. *)
Theorem later_assignment_replaces_earlier
    (body : list string) (line : string) :
  singleLines (body ++ [line]) = true ->
  (forall k v : string,
     split "=" (trimmed line) = [k; v] ->
     parseAttributes (bodyText (body ++ [line]))
     = <[trimmed k := trimmed v]> (parseAttributes (bodyText body))) /\
  (length (split "=" (trimmed line)) <> 2 ->
   parseAttributes (bodyText (body ++ [line]))
   = parseAttributes (bodyText body)).
Proof.
  intros H. rewrite parse_one_more_line by exact H. unfold addAttribute.
  split.
  - intros k v ->. reflexivity.
  - intros Hlen.
    destruct (split "=" (trimmed line)) as [| a [| b [| c rest]]];
      try reflexivity.
    simpl in Hlen. lia.
Qed.

Lemma later_assignment_replaces_earlier_witness :
  parseAttributes (bodyText ["speed = 3"; "speed = 7"])
  = <["speed" := "7"]> (parseAttributes (bodyText ["speed = 3"])) /\
  parseAttributes (bodyText ["speed = 3"; "speed = 7 = 9"])
  = parseAttributes (bodyText ["speed = 3"]).
Proof.
  destruct (later_assignment_replaces_earlier ["speed = 3"] "speed = 7"
              eq_refl) as [Hset _].
  destruct (later_assignment_replaces_earlier ["speed = 3"] "speed = 7 = 9"
              eq_refl) as [_ Hnot].
  split.
  - exact (Hset "speed " " 7" eq_refl).
  - apply Hnot. simpl. lia.
Defined.

End AttributeFacts.

(** ** The moving remote robots in a tick *)

Module RemoteMotionFacts.

Import MainWindow Scene Geometry Behaviour RobotFacts TickFacts.

(** A tick moves every remote robot whose moving flag is set when the tick
    starts, at whatever heading it has: it ends the tick one tenth of the
    way from where it started to its own target, even when the update
    stops it. *)
Theorem tick_moves_every_moving_remote_robot
    (detectA : list Item -> AutonomousRobot.t -> bool)
    (detectR : list Item -> RemoteRobot.t -> bool)
    (w : t) (i : nat) (r : RemoteRobot.t) :
  remoteRobots w !! i = Some r ->
  Robot.isMoving (RemoteRobot.base r) = true ->
  exists r',
    remoteRobots (fst (updateRobots detectA detectR w)) !! i = Some r' /\
    at_fraction 0.1
      (position (RemoteRobot.base r))
      (target (RemoteRobot.base r) (RemoteRobot.orientation r))
      (position (RemoteRobot.base r')).
Proof.
  intros Er Hm.
  destruct (tick_spec detectA detectR w) as (_ & _ & _ & M).
  destruct (M i r Er) as (r' & E' & Hpos).
  { unfold movingAt. rewrite Er. exact Hm. }
  exists r'. split; [exact E' |]. rewrite Hpos. apply interpolate_position.
Qed.

Lemma tick_moves_every_moving_remote_robot_witness :
  let w := moveRobot (selectRobot 1 twoRemotes) in
  exists r',
    remoteRobots (fst (updateRobots (fun _ _ => false) (fun _ _ => true) w))
    !! 1 = Some r' /\
    at_fraction 0.1
      (position (RemoteRobot.base (RemoteRobot.new 300 100 5 50)))
      (target (RemoteRobot.base (RemoteRobot.new 300 100 5 50)) 0)
      (position (RemoteRobot.base r')).
Proof.
  intros w.
  apply (tick_moves_every_moving_remote_robot
           (fun _ _ => false) (fun _ _ => true) w 1
           (RemoteRobot.moveForward (RemoteRobot.new 300 100 5 50)));
    reflexivity.
Defined.

End RemoteMotionFacts.
